(** * live-task: the Cloudflare Worker code refresher (worker/cf_worker.js)

    A shallow embedding of the worker that lists the live rooms of each
    configured server, matches them against the configured name groups,
    refreshes the verification code of every matched group and reports each
    server's result to a WeChat webhook.  Of the revisions of the worker in
    the repository this is the one with [fetchLiveList], [filterLiveRooms],
    [refreshRoomCode] and [refreshMultiRoomCode], one shared token and an
    injected [fetcher].

    Conventions of the embedding:
    - untyped JSON data (response payloads, rooms, room ids) is a [JsVal];
      the JavaScript coercions the code relies on ([Boolean], [String],
      [||], [??], [?.], [Array.prototype.join]) are written out on it;
    - JavaScript strings are [string]s holding the UTF-8 bytes of the text;
      on well-formed text, occurrence of one text in another, splitting at an
      ASCII character and trimming are the same on the bytes as on
      JavaScript's UTF-16 code units;
    - [async] code that calls the injected [fetcher] is a state-and-exception
      monad over the [World]: the requests issued so far and the console. *)

From Stdlib Require Import ZArith NArith Ascii String List Bool Lia.
From Stdlib Require Import DecimalString.
From stdpp Require Import base list strings gmap.

Import ListNotations.
Set Warnings "-register-all".
Local Open Scope string_scope.
Local Open Scope list_scope.

(** ** JavaScript strings *)

Module Str.

(** [s.includes(target)]: [target] occurs in [s] as a contiguous run. *)
Fixpoint includes (s target : string) : bool :=
  String.prefix target s ||
  match s with
  | EmptyString => false
  | String _ rest => includes rest target
  end.

(** [s.split(sep)] for a one-character separator: the pieces between the
    separators, one more than there are separators. *)
Fixpoint split (sep : ascii) (s : string) : list string :=
  match s with
  | EmptyString => [EmptyString]
  | String c rest =>
      if Ascii.eqb c sep then EmptyString :: split sep rest
      else match split sep rest with
           | piece :: pieces => String c piece :: pieces
           | [] => [String c EmptyString]
           end
  end.

(** [parts.join(sep)] on strings. *)
Fixpoint join (sep : string) (parts : list string) : string :=
  match parts with
  | [] => EmptyString
  | [p] => p
  | p :: rest => p +:+ sep +:+ join sep rest
  end.

Definition is_empty (s : string) : bool :=
  match s with EmptyString => true | _ => false end.

(** [Boolean(s)] on a string: the empty string is the only falsy one. *)
Definition nonempty (s : string) : bool := negb (is_empty s).

(** The code of the byte at position [i], 256 past the end. *)
Definition byte_at (i : nat) (s : string) : N :=
  match String.get i s with
  | Some c => N_of_ascii c
  | None => 256%N
  end.

(** ECMAScript WhiteSpace and LineTerminator code points, by the length of
    their UTF-8 encoding.  One byte: TAB, LF, VT, FF, CR, SP. *)
Definition ws1 (a : N) : bool :=
  ((9 <=? a) && (a <=? 13) || (a =? 32))%N.

(** Two bytes: U+00A0. *)
Definition ws2 (a b : N) : bool :=
  ((a =? 194) && (b =? 160))%N.

(** Three bytes: U+1680, U+2000..U+200A, U+2028, U+2029, U+202F, U+205F,
    U+3000, U+FEFF. *)
Definition ws3 (a b c : N) : bool :=
  ((a =? 225) && (b =? 154) && (c =? 128)
   || (a =? 226) && (b =? 128)
      && ((128 <=? c) && (c <=? 138) || (c =? 168) || (c =? 169) || (c =? 175))
   || (a =? 226) && (b =? 129) && (c =? 159)
   || (a =? 227) && (b =? 128) && (c =? 128)
   || (a =? 239) && (b =? 187) && (c =? 191))%N.

(** Bytes taken by the white-space character [s] starts with, 0 if none. *)
Definition ws_width_start (s : string) : nat :=
  if ws1 (byte_at 0 s) then 1
  else if ws2 (byte_at 0 s) (byte_at 1 s) then 2
  else if ws3 (byte_at 0 s) (byte_at 1 s) (byte_at 2 s) then 3
  else 0.

(** The same on a reversed string: the character the text ends with. *)
Definition ws_width_end (r : string) : nat :=
  if ws1 (byte_at 0 r) then 1
  else if ws2 (byte_at 1 r) (byte_at 0 r) then 2
  else if ws3 (byte_at 2 r) (byte_at 1 r) (byte_at 0 r) then 3
  else 0.

Fixpoint drop (n : nat) (s : string) : string :=
  match n, s with
  | S k, String _ rest => drop k rest
  | _, _ => s
  end.

Fixpoint strip (width : string -> nat) (fuel : nat) (s : string) : string :=
  match fuel with
  | O => s
  | S k =>
      match width s with
      | O => s
      | S w => strip width k (drop (S w) s)
      end
  end.

Definition rev (s : string) : string :=
  string_of_list_ascii (List.rev (list_ascii_of_string s)).

Definition trimStart (s : string) : string :=
  strip ws_width_start (String.length s) s.

Definition trimEnd (s : string) : string :=
  rev (strip ws_width_end (String.length s) (rev s)).

(** [s.trim()]. *)
Definition trim (s : string) : string := trimEnd (trimStart s).

(** [String(n)] for an integral number. *)
Definition of_Z (z : Z) : string := NilZero.string_of_int (Z.to_int z).

End Str.

(** ** Untyped JSON data and the JavaScript coercions on it *)

(** A value as [JSON.parse] builds it, plus [undefined], which reading an
    absent property yields.  Numbers are the integral ones (room ids and
    verification codes are), printed in decimal as JavaScript prints the
    integers it holds exactly; an object is the list of its properties. *)
Inductive JsVal : Type :=
| JUndefined
| JNull
| JBool (b : bool)
| JNum (z : Z)
| JStr (s : string)
| JArr (items : list JsVal)
| JObj (props : list (string * JsVal)).

Module Js.

(** [Boolean(v)]. *)
Definition truthy (v : JsVal) : bool :=
  match v with
  | JUndefined | JNull => false
  | JBool b => b
  | JNum z => negb (z =? 0)%Z
  | JStr s => Str.nonempty s
  | JArr _ | JObj _ => true
  end.

Definition nullish (v : JsVal) : bool :=
  match v with
  | JUndefined | JNull => true
  | _ => false
  end.

Fixpoint lookup_prop (key : string) (props : list (string * JsVal)) : JsVal :=
  match props with
  | [] => JUndefined
  | (k, v) :: rest => if String.eqb k key then v else lookup_prop key rest
  end.

(** [v?.key], for the keys the worker reads (meta, success, message, data,
    code, name, id, errcode, errmsg): none of them is a property of a
    primitive or of an array, so only an object can answer. *)
Definition get (v : JsVal) (key : string) : JsVal :=
  match v with
  | JObj props => lookup_prop key props
  | _ => JUndefined
  end.

(** [a ?? b]. *)
Definition coalesce (a b : JsVal) : JsVal := if nullish a then b else a.

(** [a || b]. *)
Definition or (a b : JsVal) : JsVal := if truthy a then a else b.

(** [String(v)]; an array prints its items joined by commas, with null
    and undefined items printed as nothing. *)
Fixpoint to_string (v : JsVal) : string :=
  match v with
  | JUndefined => "undefined"
  | JNull => "null"
  | JBool true => "true"
  | JBool false => "false"
  | JNum z => Str.of_Z z
  | JStr s => s
  | JArr items =>
      Str.join ","
        ((fix items_text (l : list JsVal) : list string :=
            match l with
            | [] => []
            | x :: rest =>
                (if nullish x then EmptyString else to_string x)
                  :: items_text rest
            end) items)
  | JObj _ => "[object Object]"
  end.

(** [items.join(sep)]. *)
Definition join (sep : string) (items : list JsVal) : string :=
  Str.join sep
    (map (fun x => if nullish x then EmptyString else to_string x) items).

Definition is_array (v : JsVal) : bool :=
  match v with JArr _ => true | _ => false end.

(** [v !== 0]. *)
Definition not_zero (v : JsVal) : bool :=
  match v with JNum z => negb (z =? 0)%Z | _ => true end.

End Js.

(** ** Exceptions *)

(** A thrown [Error]: its [name] and its [message]. *)
Record Exn : Type := mkExn { exn_name : string; exn_message : string }.

(** [new Error(message)]. *)
Definition Error (message : string) : Exn := mkExn "Error" message.

(** The text of [err.message || err] inside a template literal: the message
    when it is not empty, otherwise what [Error.prototype.toString] prints
    for an error without message, its name. *)
Definition exn_text (e : Exn) : string :=
  if Str.nonempty (exn_message e) then exn_message e else exn_name e.

(** ** The network and the monad of [async] code *)

(** A request handed to [fetcher]; [req_body] is the value that the code
    passes through [JSON.stringify]. *)
Record Request : Type := mkRequest {
  req_url : string;
  req_method : string;
  req_headers : list (string * string);
  req_body : JsVal
}.

Inductive Result (A : Type) : Type :=
| Ok (a : A)
| Throw (e : Exn).
Arguments Ok {A} a.
Arguments Throw {A} e.

(** What the code reads of a [Response]: [res.ok], [res.status],
    [res.statusText], and what [res.text()] and [res.json()] settle to. *)
Record Response : Type := mkResponse {
  res_ok : bool;
  res_status : Z;
  res_statusText : string;
  res_text : Result string;
  res_json : Result JsVal
}.

(** The injected [fetcher]: its answer to a request may depend on the
    requests it was given before. *)
Definition Fetcher : Type := list Request -> Request -> Result Response.

Record World : Type := mkWorld {
  requests : list Request;
  console : list (string * Exn)
}.

Definition M (A : Type) : Type := World -> Result A * World.

Definition ret {A} (a : A) : M A := fun w => (Ok a, w).

Definition throw {A} (e : Exn) : M A := fun w => (Throw e, w).

Definition bind {A B} (m : M A) (k : A -> M B) : M B :=
  fun w =>
    match m w with
    | (Ok a, w') => k a w'
    | (Throw e, w') => (Throw e, w')
    end.

(** [try { m } catch (err) { handler err }]. *)
Definition try_catch {A} (m : M A) (handler : Exn -> M A) : M A :=
  fun w =>
    match m w with
    | (Ok a, w') => (Ok a, w')
    | (Throw e, w') => handler e w'
    end.

(** Awaiting something already settled. *)
Definition settle {A} (r : Result A) : M A := fun w => (r, w).

(** The world after one more request. *)
Definition logged (w : World) (req : Request) : World :=
  {| requests := requests w ++ [req]; console := console w |}.

(** [await fetcher(url, options)]. *)
Definition call (fetcher : Fetcher) (req : Request) : M Response :=
  fun w =>
    (fetcher (requests w) req, logged w req).

(** [console.error(label, err)]. *)
Definition console_error (label : string) (err : Exn) : M unit :=
  fun w =>
    (Ok tt, {| requests := requests w; console := console w ++ [(label, err)] |}).

(** [const x = await m; k], an exception of [m] skipping [k]. *)
Notation "'await!' x ':=' m 'in' k" := (bind m (fun x => k))
  (at level 10, x name, m at level 100, k at level 200).

(** ** The worker *)

Record ServerConfig : Type := mkServer { alias : string; url : string }.

(** What [refreshRoomCode] and [refreshMultiRoomCode] return. *)
Record Refresh : Type := mkRefresh {
  refresh_code : string;
  refresh_success : bool;
  refresh_message : string
}.

Record MatchedGroup : Type := mkGroup {
  names : list string;
  rooms : list JsVal
}.

Record RefreshOutcome : Type := mkOutcome {
  name : string;
  code : string;
  success : bool;
  message : string
}.

Record ServerResult : Type := mkResult {
  result_alias : string;
  result_rooms : list RefreshOutcome;
  result_success : bool;
  result_error : option string
}.

Record Config : Type := mkConfig {
  servers : list ServerConfig;
  liveNames : list string;
  token : string;
  webhookKey : string
}.

Definition LIVE_LIST_PAYLOAD : JsVal :=
  JObj [("pageInfo",
         JObj [("orderBy", JStr ""); ("pageNum", JNum 1); ("pageSize", JNum 1000);
               ("total", JNum 100); ("pages", JNum 10)]);
        ("param", JObj [])].

(** An environment object: [env], the query overrides, [process.env]. *)
Abbreviation Env := (gmap string string).

Definition env_get (env : Env) (key : string) : option string :=
  match env !! key with
  | Some v => if Str.nonempty v then Some v else None
  | None => None
  end.

(** [getEnv]: overrides, then [env], then [process.env] ([penv], absent
    where there is no [process]); [None] is [undefined]. *)
Definition getEnv (penv : option Env) (env overrides : Env) (key : string)
  : option string :=
  match env_get overrides key with
  | Some v => Some v
  | None =>
      match env_get env key with
      | Some v => Some v
      | None =>
          match penv with
          | Some p => env_get p key
          | None => None
          end
      end
  end.

Definition parseList (value : option string) : list string :=
  List.filter Str.nonempty
    (map Str.trim (Str.split "," (default EmptyString value))).

Definition loadConfig (penv : option Env) (env overrides : Env) : Result Config :=
  let aliasList := parseList (getEnv penv env overrides "SERVER_ALIAS_LIST") in
  let urlList := parseList (getEnv penv env overrides "SERVER_URL_LIST") in
  let liveNames := parseList (getEnv penv env overrides "LIVE_NAME_LIST") in
  let token := Str.trim (default EmptyString (getEnv penv env overrides "SERVER_TOKEN")) in
  let webhookKey :=
    Str.trim (default EmptyString (getEnv penv env overrides "WECHAT_WEBHOOK_KEY")) in
  if (length aliasList =? 0)%nat then Throw (Error "SERVER_ALIAS_LIST 未配置")
  else if (length urlList =? 0)%nat then Throw (Error "SERVER_URL_LIST 未配置")
  else if negb (length aliasList =? length urlList)%nat
  then Throw (Error "SERVER_ALIAS_LIST 与 SERVER_URL_LIST 数量不一致")
  else if (length liveNames =? 0)%nat then Throw (Error "LIVE_NAME_LIST 未配置")
  else if Str.is_empty token then Throw (Error "SERVER_TOKEN 未配置")
  else if Str.is_empty webhookKey then Throw (Error "WECHAT_WEBHOOK_KEY 未配置")
  else
    (* urlList[idx] is in range: the two lists have the same length *)
    Ok {| servers :=
            imap (fun idx alias => mkServer alias (nth idx urlList EmptyString)) aliasList;
          liveNames := liveNames;
          token := token;
          webhookKey := webhookKey |}.

Definition safeJson (res : Response) : JsVal :=
  match res_json res with
  | Ok v => v
  | Throw _ => JNull
  end.

Definition safeError (res : Response) : string :=
  match res_text res with
  | Ok body =>
      Str.of_Z (res_status res) +:+ " " +:+ res_statusText res +:+ ": " +:+ body
  | Throw _ => Str.of_Z (res_status res) +:+ " " +:+ res_statusText res
  end.

Definition buildHeaders (token : string) : list (string * string) :=
  [("Content-Type", "application/json"); ("Token", token)].

Definition post (endpoint : string) (headers : list (string * string))
    (body : JsVal) : Request :=
  mkRequest endpoint "POST" headers body.

Definition liveListRequest (server : ServerConfig) (token : string) : Request :=
  post ("https://" +:+ url server +:+ "/api/live/liveList")
       (buildHeaders token) LIVE_LIST_PAYLOAD.

Definition fetchLiveList (server : ServerConfig) (token : string)
    (fetcher : Fetcher) : M (list JsVal) :=
  await! res := call fetcher (liveListRequest server token) in
  if negb (res_ok res) then throw (Error (safeError res))
  else
    await! data := settle (res_json res) in
    if negb (Js.truthy (Js.get (Js.get data "meta") "success"))
    then throw (Error (Js.to_string
                         (Js.or (Js.get (Js.get data "meta") "message")
                                (JStr "获取直播列表失败"))))
    else
      match Js.get data "data" with
      | JArr items => ret items
      | _ => throw (Error "直播列表数据格式异常")
      end.

Definition refreshRoomRequest (server : ServerConfig) (token : string)
    (liveId : JsVal) : Request :=
  post ("https://" +:+ url server +:+ "/api/live/refreshVerifyCode")
       (buildHeaders token) (JObj [("param", JStr (Js.to_string liveId))]).

Definition refreshRoomCode (server : ServerConfig) (token : string)
    (liveId : JsVal) (fetcher : Fetcher) : M Refresh :=
  await! res := call fetcher (refreshRoomRequest server token liveId) in
  if negb (res_ok res) then throw (Error (safeError res))
  else
    let data := safeJson res in
    let success := Js.truthy (Js.get (Js.get data "meta") "success") in
    let code :=
      Js.coalesce
        (Js.coalesce (Js.get (Js.get data "data") "code")
                     (Js.get (Js.get data "meta") "message"))
        (JStr "刷新失败") in
    ret {| refresh_code := Js.to_string code;
           refresh_success := success;
           refresh_message := if success then EmptyString else Js.to_string code |}.

Definition refreshMultiRoomRequest (server : ServerConfig) (token : string)
    (liveIds : list JsVal) : Request :=
  post ("https://" +:+ url server +:+ "/api/live/batchRefVerifyCode")
       (buildHeaders token) (JObj [("param", JStr (Js.join "," liveIds))]).

Definition refreshMultiRoomCode (server : ServerConfig) (token : string)
    (liveIds : list JsVal) (fetcher : Fetcher) : M Refresh :=
  await! res := call fetcher (refreshMultiRoomRequest server token liveIds) in
  if negb (res_ok res) then throw (Error (safeError res))
  else
    let data := safeJson res in
    let success := Js.truthy (Js.get (Js.get data "meta") "success") in
    let code :=
      Js.coalesce
        (Js.coalesce (Js.get data "data")
                     (Js.get (Js.get data "meta") "message"))
        (JStr "刷新失败") in
    ret {| refresh_code := Js.to_string code;
           refresh_success := success;
           refresh_message := if success then EmptyString else Js.to_string code |}.

(** The callback of [map] in [parseLiveNameGroups]:
    [item.split("|").map((n) => n.trim()).filter(Boolean)]. *)
Definition entryPatterns (item : string) : list string :=
  List.filter Str.nonempty (map Str.trim (Str.split "|" item)).

Definition parseLiveNameGroups (liveNames : list string) : list (list string) :=
  map entryPatterns (List.filter Str.nonempty liveNames).

(** [String(room?.name || "")]. *)
Definition roomName (room : JsVal) : string :=
  Js.to_string (Js.or (Js.get room "name") (JStr "")).

(** The callback of [liveList.find] in [filterLiveRooms]. *)
Definition roomMatches (target : string) (room : JsVal) : bool :=
  let name := roomName room in
  Str.nonempty name && Str.includes name target.

(** The inner loop of [filterLiveRooms]: [rooms] is the array pushed to. *)
Fixpoint matchTargets (liveList : list JsVal) (nameGroup : list string)
    (rooms : list JsVal) : list JsVal :=
  match nameGroup with
  | [] => rooms
  | target :: rest =>
      match List.find (roomMatches target) liveList with
      | Some matched =>
          (* a room the callback accepts is an object, hence truthy *)
          if Js.truthy matched then matchTargets liveList rest (rooms ++ [matched])
          else matchTargets liveList rest rooms
      | None => matchTargets liveList rest rooms
      end
  end.

(** The outer loop of [filterLiveRooms]: [result] is the array pushed to. *)
Fixpoint matchGroups (liveList : list JsVal) (groups : list (list string))
    (result : list MatchedGroup) : list MatchedGroup :=
  match groups with
  | [] => result
  | nameGroup :: rest =>
      let rooms := matchTargets liveList nameGroup [] in
      if (0 <? length rooms)%nat
      then matchGroups liveList rest (result ++ [mkGroup nameGroup rooms])
      else matchGroups liveList rest result
  end.

Definition filterLiveRooms (liveList : list JsVal) (liveNames : list string)
  : list MatchedGroup :=
  matchGroups liveList (parseLiveNameGroups liveNames) [].

Definition missingIdMessage : string := "缺少直播间 ID，无法刷码".

(** [group.rooms.map((r) => r?.id).filter(Boolean)]. *)
Definition groupLiveIds (group : MatchedGroup) : list JsVal :=
  List.filter Js.truthy (map (fun r => Js.get r "id") (rooms group)).

(** The call inside the [try] of the loop body: one id goes to
    [refreshRoomCode], several go together to [refreshMultiRoomCode]. *)
Definition refreshCall (server : ServerConfig) (token : string)
    (fetcher : Fetcher) (liveIds : list JsVal) : M Refresh :=
  if (length liveIds =? 1)%nat
  then refreshRoomCode server token (nth 0 liveIds JUndefined) fetcher
  else refreshMultiRoomCode server token liveIds fetcher.

Definition displayName (group : MatchedGroup) : string :=
  Str.join "|" (names group).

Definition exceptionMessage (err : Exn) : string := "刷码异常：" +:+ exn_text err.

(** The body of the loop over the matched groups in [refreshServer]: the
    outcome it pushes to [result.rooms]. *)
Definition refreshGroup (server : ServerConfig) (token : string)
    (fetcher : Fetcher) (group : MatchedGroup) : M RefreshOutcome :=
  let liveIds := groupLiveIds group in
  if (length liveIds =? 0)%nat
  then ret (mkOutcome (displayName group) missingIdMessage false missingIdMessage)
  else
    try_catch
      (await! refresh := refreshCall server token fetcher liveIds in
       ret (mkOutcome (displayName group) (refresh_code refresh)
                      (refresh_success refresh) (refresh_message refresh)))
      (fun err =>
         let message := exceptionMessage err in
         ret (mkOutcome (displayName group) message false message)).

(** The loop over the matched groups: [rooms] is [result.rooms]. *)
Fixpoint refreshGroups (server : ServerConfig) (token : string)
    (fetcher : Fetcher) (matched : list MatchedGroup)
    (rooms : list RefreshOutcome) : M (list RefreshOutcome) :=
  match matched with
  | [] => ret rooms
  | group :: rest =>
      await! outcome := refreshGroup server token fetcher group in
      refreshGroups server token fetcher rest (rooms ++ [outcome])
  end.

Definition noMatchError : string := "未匹配到任何需要刷码的直播间".

Definition refreshServer (server : ServerConfig) (token : string)
    (liveNames : list string) (fetcher : Fetcher) : M ServerResult :=
  await! fetched :=
    try_catch
      (await! liveList := fetchLiveList server token fetcher in ret (inr liveList))
      (fun err => ret (inl ("获取直播列表失败：" +:+ exn_text err))) in
  match fetched with
  | inl error => ret (mkResult (alias server) [] false (Some error))
  | inr liveList =>
      let matched := filterLiveRooms liveList liveNames in
      if (length matched =? 0)%nat
      then ret (mkResult (alias server) [] false (Some noMatchError))
      else
        await! rooms := refreshGroups server token fetcher matched [] in
        ret (mkResult (alias server) rooms
               ((0 <? length rooms)%nat && forallb success rooms) None)
  end.

Definition outcomeLine (room : RefreshOutcome) : string :=
  if success room then name room +:+ ":" +:+ code room
  else name room +:+ " 刷码失败：" +:+ message room.

Definition newline : string := String (ascii_of_nat 10) EmptyString.

Definition buildMessage (serverResult : ServerResult) : string :=
  let alias :=
    if Str.nonempty (result_alias serverResult) then result_alias serverResult
    else "unknown" in
  (* an error is truthy when it is set and not the empty string *)
  let error := default EmptyString (result_error serverResult) in
  if Str.nonempty error
  then "【" +:+ alias +:+ "】刷码失败" +:+ newline +:+ "原因：" +:+ error
  else
    let header :=
      if result_success serverResult then "刷码成功" else "刷码完成（部分失败）" in
    let lines :=
      ["【" +:+ alias +:+ "】" +:+ header]
        ++ (if (length (result_rooms serverResult) =? 0)%nat
            then ["未匹配到需要刷码的直播间"]
            else map outcomeLine (result_rooms serverResult)) in
    Str.join newline lines.

Definition notificationRequest (webhookKey : string) (serverResult : ServerResult)
  : Request :=
  post ("https://qyapi.weixin.qq.com/cgi-bin/webhook/send?key=" +:+ webhookKey)
       [("Content-Type", "application/json")]
       (JObj [("msgtype", JStr "text");
              ("text", JObj [("content", JStr (buildMessage serverResult))])]).

Definition sendNotification (webhookKey : string) (serverResult : ServerResult)
    (fetcher : Fetcher) : M unit :=
  await! res := call fetcher (notificationRequest webhookKey serverResult) in
  if negb (res_ok res) then throw (Error (safeError res))
  else
    let data := safeJson res in
    if Js.not_zero (Js.get data "errcode")
    then throw (Error (Js.to_string
                         (Js.or (Js.get data "errmsg") (JStr "企业微信返回错误"))))
    else ret tt.

(** The loop of [refreshAll]: [results] is the array pushed to. *)
Fixpoint refreshEach (servers : list ServerConfig) (token : string)
    (liveNames : list string) (fetcher : Fetcher)
    (results : list ServerResult) : M (list ServerResult) :=
  match servers with
  | [] => ret results
  | server :: rest =>
      await! result := refreshServer server token liveNames fetcher in
      refreshEach rest token liveNames fetcher (results ++ [result])
  end.

Definition refreshAll (servers : list ServerConfig) (token : string)
    (liveNames : list string) (fetcher : Fetcher) : M (list ServerResult) :=
  refreshEach servers token liveNames fetcher [].

(** The notification loop of [run]. *)
Fixpoint notifyEach (webhookKey : string) (fetcher : Fetcher)
    (results : list ServerResult) : M unit :=
  match results with
  | [] => ret tt
  | result :: rest =>
      await! _done :=
        try_catch (sendNotification webhookKey result fetcher)
          (fun err =>
             console_error ("[" +:+ result_alias result +:+ "] 通知发送失败:") err) in
      notifyEach webhookKey fetcher rest
  end.

Definition run (penv : option Env) (env overrides : Env) (fetcher : Fetcher)
  : M (list ServerResult) :=
  await! config := settle (loadConfig penv env overrides) in
  await! results :=
    refreshAll (servers config) (token config) (liveNames config) fetcher in
  await! _done := notifyEach (webhookKey config) fetcher results in
  ret results.

(** ** The request handler *)

(** What the handlers read of [new URL(request.url)]: the path, and the
    query as the list of its name/value pairs, in order. *)
Record WorkerRequest : Type := mkWorkerRequest {
  pathname : string;
  searchParams : list (string * string)
}.

(** [params.get(name)]: the first value given for [name], [None] for null. *)
Fixpoint params_get (params : list (string * string)) (name : string)
  : option string :=
  match params with
  | [] => None
  | (k, v) :: rest => if String.eqb k name then Some v else params_get rest name
  end.

(** The helper [mapIf] of [parseOverridesFromUrl], on the object [map]. *)
Definition mapIf (params : list (string * string)) (map : Env)
    (key param : string) : Env :=
  match params_get params param with
  | Some value => if Str.nonempty value then <[key := value]> map else map
  | None => map
  end.

Definition parseOverridesFromUrl (params : list (string * string)) : Env :=
  let map := mapIf params ∅ "SERVER_ALIAS_LIST" "server_alias_list" in
  let map := mapIf params map "SERVER_URL_LIST" "server_url_list" in
  let map := mapIf params map "LIVE_NAME_LIST" "live_name_list" in
  let map := mapIf params map "SERVER_TOKEN" "server_token" in
  mapIf params map "WECHAT_WEBHOOK_KEY" "wechat_webhook_key".

(** The body of a response of the worker: a plain text, or the value given
    to [JSON.stringify]: [{ ok: true, results }] or [{ ok: false, error }]. *)
Inductive WorkerBody : Type :=
| BodyText (text : string)
| BodyResults (results : list ServerResult)
| BodyError (error : string).

Record WorkerResponse : Type := mkWorkerResponse {
  wr_status : Z;
  wr_headers : list (string * string);
  wr_body : WorkerBody
}.

(** [handleRequest]; [fetch] is the global one, the default of [run]. *)
Definition handleRequest (penv : option Env) (fetch : Fetcher)
    (request : WorkerRequest) (env : Env) : M WorkerResponse :=
  try_catch
    (let overrides := parseOverridesFromUrl (searchParams request) in
     await! results := run penv env overrides fetch in
     ret (mkWorkerResponse 200 [("content-type", "application/json")]
                           (BodyResults results)))
    (fun error =>
       let message :=
         if Str.nonempty (exn_message error) then exn_message error
         else "unknown error" in
       ret (mkWorkerResponse 500 [("content-type", "application/json")]
                             (BodyError message))).

(** The [fetch] handler of the default export. *)
Definition fetchHandler (penv : option Env) (fetch : Fetcher)
    (request : WorkerRequest) (env : Env) : M WorkerResponse :=
  if negb (String.eqb (pathname request) "/refresh")
  then ret (mkWorkerResponse 404 [] (BodyText "Not Found"))
  else handleRequest penv fetch request env.

(** ** The first revision of the worker: one room per server *)

(** [worker/cf_worker.js] as it stands in the repository: each of the servers
    EAST, WEST and HEBEI has its own url, token and room id in the
    environment; every server's room is refreshed, and one notification
    reports all the results. [fetch] is the global one. *)
Module Legacy.

(** [s.toLowerCase()], on ASCII text (the aliases are). *)
Definition lower_ascii (c : ascii) : ascii :=
  let n := N_of_ascii c in
  if ((65 <=? n) && (n <=? 90))%N then ascii_of_N (n + 32) else c.

Fixpoint toLowerCase (s : string) : string :=
  match s with
  | EmptyString => EmptyString
  | String c rest => String (lower_ascii c) (toLowerCase rest)
  end.

Definition getEnv (penv : option Env) (env : Env) (key : string) : option string :=
  match env_get env key with
  | Some v => Some v
  | None =>
      match penv with
      | Some p => env_get p key
      | None => None
      end
  end.

Record Server : Type := mkServer {
  alias : string;
  url : string;
  token : string;
  roomId : string
}.

(** What [refreshServer] returns; [code] is whatever the payload holds. *)
Record Outcome : Type := mkOutcome {
  outcome_alias : string;
  code : JsVal;
  success : bool
}.

Definition aliases : list string := ["EAST"; "WEST"; "HEBEI"].

(** The loop of [loadServers]: [servers] is the array pushed to. *)
Fixpoint loadEach (penv : option Env) (env : Env) (aliases : list string)
    (servers : list Server) : list Server :=
  match aliases with
  | [] => servers
  | alias :: rest =>
      match getEnv penv env (alias +:+ "_URL"),
            getEnv penv env (alias +:+ "_TOKEN"),
            getEnv penv env (alias +:+ "_ROOM_ID") with
      | Some url, Some token, Some roomId =>
          loadEach penv env rest
                   (servers ++ [mkServer (toLowerCase alias) url token roomId])
      | _, _, _ => loadEach penv env rest servers
      end
  end.

Definition loadServers (penv : option Env) (env : Env)
  : Result (list Server) :=
  let servers := loadEach penv env aliases [] in
  if (length servers =? 0)%nat
  then Throw (Error "No servers configured via environment variables")
  else Ok servers.

Definition refreshRequest (server : Server) : Request :=
  mkRequest ("https://" +:+ url server +:+ "/api/live/refreshVerifyCode") "POST"
            [("Content-Type", "application/json");
             ("Authorization", "Bearer " +:+ token server)]
            (JObj [("param", JStr (roomId server))]).

Definition refreshServer (fetch : Fetcher) (server : Server) : M Outcome :=
  try_catch
    (await! response := call fetch (refreshRequest server) in
     if negb (res_ok response)
     then ret (mkOutcome (alias server) (JStr (safeError response)) false)
     else
       await! data := settle (res_json response) in
       let success := Js.truthy (Js.get (Js.get data "meta") "success") in
       let code := Js.coalesce (Js.get (Js.get data "data") "code") (JStr "N/A") in
       ret (mkOutcome (alias server)
                     (if success then code
                      else Js.coalesce (Js.get (Js.get data "meta") "message")
                                       (JStr "刷新失败"))
                     success))
    (fun error => ret (mkOutcome (alias server) (JStr (exn_message error)) false)).

(** The loop of [refreshAll]: [results] is the array pushed to. *)
Fixpoint refreshEach (fetch : Fetcher) (servers : list Server)
    (results : list Outcome) : M (list Outcome) :=
  match servers with
  | [] => ret results
  | server :: rest =>
      await! result := refreshServer fetch server in
      refreshEach fetch rest (results ++ [result])
  end.

Definition refreshAll (penv : option Env) (fetch : Fetcher) (env : Env)
  : M (list Outcome) :=
  await! servers := settle (loadServers penv env) in
  refreshEach fetch servers [].

Definition buildWebhookUrl (penv : option Env) (env : Env)
  : Result string :=
  match getEnv penv env "WECHAT_WEBHOOK_KEY" with
  | Some key => Ok ("https://qyapi.weixin.qq.com/cgi-bin/webhook/send?key=" +:+ key)
  | None => Throw (Error "WECHAT_WEBHOOK_KEY is missing")
  end.

Definition quote : string := String (ascii_of_nat 34) EmptyString.

Definition resultLine (result : Outcome) : string :=
  let color := if success result then "info" else "warning" in
  "<font color=" +:+ quote +:+ "comment" +:+ quote +:+ ">" +:+ outcome_alias result
  +:+ "</font>:<font color=" +:+ quote +:+ color +:+ quote +:+ ">"
  +:+ Js.to_string (code result) +:+ "</font>".

Definition content (results : list Outcome) : string :=
  let successCount := length (List.filter success results) in
  let lines :=
    ("刷码成功<font color=" +:+ quote +:+ "warning" +:+ quote +:+ ">"
     +:+ Str.of_Z (Z.of_nat successCount) +:+ "</font>/"
     +:+ Str.of_Z (Z.of_nat (length results)))
      :: map resultLine results in
  Str.join (newline +:+ ">") lines.

Definition notificationRequest (webhook : string) (results : list Outcome)
  : Request :=
  mkRequest webhook "POST" [("Content-Type", "application/json")]
            (JObj [("msgtype", JStr "markdown");
                   ("markdown", JObj [("content", JStr (content results))])]).

Definition sendNotification (penv : option Env) (fetch : Fetcher) (env : Env)
    (results : list Outcome) : M unit :=
  await! webhook := settle (buildWebhookUrl penv env) in
  await! response := call fetch (notificationRequest webhook results) in
  if negb (res_ok response)
  then throw (Error ("Failed to send notification: " +:+ safeError response))
  else
    await! body := settle (res_json response) in
    if Js.not_zero (Js.get body "errcode")
    then throw (Error ("WeChat webhook error: "
                       +:+ Js.to_string (Js.coalesce (Js.get body "errmsg")
                                                     (JStr "unknown error"))))
    else ret tt.

Definition run (penv : option Env) (fetch : Fetcher) (env : Env)
  : M (list Outcome) :=
  await! results := refreshAll penv fetch env in
  await! _done := sendNotification penv fetch env results in
  ret results.

(** The body of a response of the worker: a plain text, or the value given
    to [JSON.stringify]. *)
Inductive Body : Type :=
| BodyText (text : string)
| BodyResults (results : list Outcome)
| BodyError (error : string).

Record Reply : Type := mkReply {
  status : Z;
  headers : list (string * string);
  body : Body
}.

Definition handleRequest (penv : option Env) (fetch : Fetcher) (env : Env)
  : M Reply :=
  try_catch
    (await! results := run penv fetch env in
     ret (mkReply 200 [("content-type", "application/json")]
                     (BodyResults results)))
    (fun error =>
       ret (mkReply 500 [("content-type", "application/json")]
                       (BodyError (exn_message error)))).

(** The [fetch] handler of the default export, on the path of the request. *)
Definition fetchHandler (penv : option Env) (fetch : Fetcher)
    (pathname : string) (env : Env) : M Reply :=
  if negb (String.eqb pathname "/refresh")
  then ret (mkReply 404 [] (BodyText "Not Found"))
  else handleRequest penv fetch env.

End Legacy.

(** ** The second revision: overrides, one notification per result *)

(** The revision between the two: servers as in the first one, settings that
    the query of a request can override, and one notification per result.
    Its [getEnv], [refreshServer] and [safeError] are the ones above
    ([getEnv] with overrides, [Legacy.refreshServer]). *)
Module Revision2.

(** The loop of [loadServers]: [servers] is the array pushed to. *)
Fixpoint loadEach (penv : option Env) (env overrides : Env)
    (aliases : list string) (servers : list Legacy.Server) : list Legacy.Server :=
  match aliases with
  | [] => servers
  | alias :: rest =>
      match getEnv penv env overrides (alias +:+ "_URL"),
            getEnv penv env overrides (alias +:+ "_TOKEN"),
            getEnv penv env overrides (alias +:+ "_ROOM_ID") with
      | Some url, Some token, Some roomId =>
          loadEach penv env overrides rest
            (servers ++ [Legacy.mkServer (Legacy.toLowerCase alias) url token roomId])
      | _, _, _ => loadEach penv env overrides rest servers
      end
  end.

Definition loadServers (penv : option Env) (env overrides : Env)
  : Result (list Legacy.Server) :=
  let servers := loadEach penv env overrides Legacy.aliases [] in
  if (length servers =? 0)%nat
  then Throw (Error ("No servers configured via environment variables or query "
                     +:+ "overrides (e.g. ?east_url=...&east_token=...&east_room_id=...)"))
  else Ok servers.

Definition refreshAll (penv : option Env) (fetch : Fetcher) (env overrides : Env)
  : M (list Legacy.Outcome) :=
  await! servers := settle (loadServers penv env overrides) in
  Legacy.refreshEach fetch servers [].

Definition buildWebhookUrl (penv : option Env) (env overrides : Env)
  : Result string :=
  match getEnv penv env overrides "WECHAT_WEBHOOK_KEY" with
  | Some key => Ok ("https://qyapi.weixin.qq.com/cgi-bin/webhook/send?key=" +:+ key)
  | None => Throw (Error "WECHAT_WEBHOOK_KEY is missing")
  end.

Definition content (result : Legacy.Outcome) : string :=
  let statusText := if Legacy.success result then "刷码成功" else "刷码失败" in
  let prefix := "[" +:+ Legacy.outcome_alias result +:+ "]" in
  let details :=
    if Legacy.success result
    then "验证码：" +:+ Js.to_string (Legacy.code result)
    else "原因：" +:+ Js.to_string (Legacy.code result) in
  prefix +:+ statusText +:+ " " +:+ details.

Definition notificationRequest (webhook : string) (result : Legacy.Outcome)
  : Request :=
  mkRequest webhook "POST" [("Content-Type", "application/json")]
            (JObj [("msgtype", JStr "text");
                   ("text", JObj [("content", JStr (content result))])]).

Definition sendNotification (penv : option Env) (fetch : Fetcher)
    (env overrides : Env) (result : Legacy.Outcome) : M unit :=
  await! webhook := settle (buildWebhookUrl penv env overrides) in
  await! response := call fetch (notificationRequest webhook result) in
  if negb (res_ok response)
  then throw (Error ("Failed to send notification: " +:+ safeError response))
  else
    await! body := settle (res_json response) in
    if Js.not_zero (Js.get body "errcode")
    then throw (Error ("WeChat webhook error: "
                       +:+ Js.to_string (Js.coalesce (Js.get body "errmsg")
                                                     (JStr "unknown error"))))
    else ret tt.

(** The notification loop of [run]: no [try] around the sending. *)
Fixpoint notifyEach (penv : option Env) (fetch : Fetcher) (env overrides : Env)
    (results : list Legacy.Outcome) : M unit :=
  match results with
  | [] => ret tt
  | result :: rest =>
      await! _done := sendNotification penv fetch env overrides result in
      notifyEach penv fetch env overrides rest
  end.

Definition run (penv : option Env) (fetch : Fetcher) (env overrides : Env)
  : M (list Legacy.Outcome) :=
  await! results := refreshAll penv fetch env overrides in
  await! _done := notifyEach penv fetch env overrides results in
  ret results.

End Revision2.

(** ** Vocabulary of the specification *)

(** [target] occurs in [s]: some text, then [target], then some text. *)
Definition Contains (s target : string) : Prop :=
  exists before after, s = before +:+ target +:+ after.

(** [room] is the first room of [liveList] whose name contains [target]. *)
Definition FirstMatch (liveList : list JsVal) (target : string) (room : JsVal)
  : Prop :=
  exists i : nat,
    liveList !! i = Some room
    /\ Contains (roomName room) target
    /\ forall (j : nat) (other : JsVal),
         (j < i)%nat -> liveList !! j = Some other ->
         ~ Contains (roomName other) target.

Definition NoMatch (liveList : list JsVal) (target : string) : Prop :=
  forall room, In room liveList -> ~ Contains (roomName room) target.

(** The rooms selected for the patterns of one group: pattern by pattern,
    the first match, or nothing where no room matches. *)
Inductive Selected (liveList : list JsVal) : list string -> list JsVal -> Prop :=
| Selected_nil : Selected liveList [] []
| Selected_hit target room targets found :
    FirstMatch liveList target room ->
    Selected liveList targets found ->
    Selected liveList (target :: targets) (room :: found)
| Selected_miss target targets found :
    NoMatch liveList target ->
    Selected liveList targets found ->
    Selected liveList (target :: targets) found.

(** The matched groups of a list of pattern groups: each group with the rooms
    selected for it, the groups that select no room left out. *)
Inductive MatchedGroups (liveList : list JsVal)
  : list (list string) -> list MatchedGroup -> Prop :=
| MatchedGroups_nil : MatchedGroups liveList [] []
| MatchedGroups_keep nameGroup found groups result :
    Selected liveList nameGroup found ->
    found <> [] ->
    MatchedGroups liveList groups result ->
    MatchedGroups liveList (nameGroup :: groups) (mkGroup nameGroup found :: result)
| MatchedGroups_drop nameGroup groups result :
    Selected liveList nameGroup [] ->
    MatchedGroups liveList groups result ->
    MatchedGroups liveList (nameGroup :: groups) result.

(** [s] neither starts nor ends with a white-space character. *)
Definition Trimmed (s : string) : Prop :=
  Str.ws_width_start s = O /\ Str.ws_width_end (Str.rev s) = O.

(** What a list setting may hold for one of its items: something, trimmed,
    without the separator. *)
Definition ListItem (sep : ascii) (item : string) : Prop :=
  item <> EmptyString /\ Trimmed item /\ ~ In sep (list_ascii_of_string item).

(** The settings that the query of a request can override, each with the
    name of its query parameter. *)
Definition overrideKeys : list (string * string) :=
  [("SERVER_ALIAS_LIST", "server_alias_list");
   ("SERVER_URL_LIST", "server_url_list");
   ("LIVE_NAME_LIST", "live_name_list");
   ("SERVER_TOKEN", "server_token");
   ("WECHAT_WEBHOOK_KEY", "wechat_webhook_key")].

(** The value of a query parameter that counts: the first one given, unless
    it is empty. *)
Definition queryValue (params : list (string * string)) (param : string)
  : option string :=
  match params_get params param with
  | Some value => if Str.nonempty value then Some value else None
  | None => None
  end.

(** The webhook accepts a notification: a 2xx response whose body is JSON
    with [errcode] the number 0. *)
Definition Accepted (answer : Result Response) : Prop :=
  exists res payload,
    answer = Ok res /\ res_ok res = true /\ res_json res = Ok payload
    /\ Js.get payload "errcode" = JNum 0.

(** A request of [refreshAll]: a POST with the token header to one of the
    servers, under /api/live/. *)
Definition ServerRequest (servers : list ServerConfig) (token : string)
    (req : Request) : Prop :=
  req_method req = "POST"
  /\ req_headers req = buildHeaders token
  /\ exists server path,
       In server servers
       /\ req_url req = "https://" +:+ url server +:+ "/api/live/" +:+ path.

(** The notification of the second revision for one result, with the
    webhook key [key]. *)
Definition revision2Notification (key : string) (result : Legacy.Outcome)
  : Request :=
  Revision2.notificationRequest
    ("https://qyapi.weixin.qq.com/cgi-bin/webhook/send?key=" +:+ key) result.

(** The webhook does not accept a notification, and [err] is what
    [sendNotification] throws for it: the fetcher's own exception, the
    [safeError] of a response that is not 2xx, or the [errmsg] (else the
    literal) of a 2xx response whose [errcode] is not the number 0, a body
    that is not JSON counting as null. *)
Inductive Rejected : Result Response -> Exn -> Prop :=
| Rejected_network err : Rejected (Throw err) err
| Rejected_status res :
    res_ok res = false -> Rejected (Ok res) (Error (safeError res))
| Rejected_errcode res :
    res_ok res = true ->
    Js.get (safeJson res) "errcode" <> JNum 0 ->
    Rejected (Ok res)
             (Error (Js.to_string (Js.or (Js.get (safeJson res) "errmsg")
                                         (JStr "企业微信返回错误")))).

(** The console entries of the notification loop for [results], the
    requests made so far being [history]: going through the results in
    order, a notification that is accepted leaves no entry, and one that is
    rejected leaves exactly one, labelled with the alias of its result and
    holding the exception; each notification is one more request. *)
Inductive NotificationFailures (webhookKey : string) (fetcher : Fetcher)
  : list Request -> list ServerResult -> list (string * Exn) -> Prop :=
| NotificationFailures_nil history :
    NotificationFailures webhookKey fetcher history [] []
| NotificationFailures_accepted history result results failures :
    Accepted (fetcher history (notificationRequest webhookKey result)) ->
    NotificationFailures webhookKey fetcher
      (history ++ [notificationRequest webhookKey result]) results failures ->
    NotificationFailures webhookKey fetcher history (result :: results) failures
| NotificationFailures_rejected history result err results failures :
    Rejected (fetcher history (notificationRequest webhookKey result)) err ->
    NotificationFailures webhookKey fetcher
      (history ++ [notificationRequest webhookKey result]) results failures ->
    NotificationFailures webhookKey fetcher history (result :: results)
      (("[" +:+ result_alias result +:+ "] 通知发送失败:", err) :: failures).

(** [parseGroups] as the specification words it: every raw entry gives its
    patterns, and the entries that give no pattern are dropped. *)
Definition parseGroups_spec (rawNames : list string) : list (list string) :=
  List.filter (fun patterns => (0 <? length patterns)%nat)
              (map entryPatterns rawNames).

(** The refresh requests made for one matched group: none when no room of
    it has a usable id, one to the single-room endpoint when one has, one to
    the batch endpoint for all of them when several have. *)
Definition groupRequests (server : ServerConfig) (token : string)
    (group : MatchedGroup) : list Request :=
  match groupLiveIds group with
  | [] => []
  | [liveId] => [refreshRoomRequest server token liveId]
  | liveIds => [refreshMultiRoomRequest server token liveIds]
  end.

(** How one matched group gets its outcome, from world [w] to world [w']:
    without a usable id the failure is made up on the spot and the world is
    left as it is; otherwise the refresh call is made and either its result
    is the outcome, or the exception it throws is turned into a failure. *)
Inductive GroupOutcome (server : ServerConfig) (token : string)
    (fetcher : Fetcher) (group : MatchedGroup) (w : World)
  : RefreshOutcome -> World -> Prop :=
| GroupOutcome_missing_id :
    groupLiveIds group = [] ->
    GroupOutcome server token fetcher group w
      (mkOutcome (displayName group) missingIdMessage false missingIdMessage) w
| GroupOutcome_refreshed refresh w' :
    groupLiveIds group <> [] ->
    refreshCall server token fetcher (groupLiveIds group) w = (Ok refresh, w') ->
    GroupOutcome server token fetcher group w
      (mkOutcome (displayName group) (refresh_code refresh)
                 (refresh_success refresh) (refresh_message refresh)) w'
| GroupOutcome_exception err w' :
    groupLiveIds group <> [] ->
    refreshCall server token fetcher (groupLiveIds group) w = (Throw err, w') ->
    GroupOutcome server token fetcher group w
      (mkOutcome (displayName group) (exceptionMessage err) false
                 (exceptionMessage err)) w'.

(** The outcomes of a list of matched groups, one after the other. *)
Inductive GroupOutcomes (server : ServerConfig) (token : string)
    (fetcher : Fetcher)
  : World -> list MatchedGroup -> list RefreshOutcome -> World -> Prop :=
| GroupOutcomes_nil w : GroupOutcomes server token fetcher w [] [] w
| GroupOutcomes_cons w group outcome w1 groups outcomes w2 :
    GroupOutcome server token fetcher group w outcome w1 ->
    GroupOutcomes server token fetcher w1 groups outcomes w2 ->
    GroupOutcomes server token fetcher w (group :: groups) (outcome :: outcomes) w2.

(** The ways the list fetch fails, on what the fetcher gives for the list
    request: a status that is not 2xx, a payload whose [meta.success] is
    falsy, a [data] that is not an array; and the two failures of the
    transport itself, a fetcher that throws and a body that is not JSON. *)
Inductive ListFetchFails : Result Response -> Prop :=
| ListFetchFails_status res :
    res_ok res = false -> ListFetchFails (Ok res)
| ListFetchFails_upstream res payload :
    res_ok res = true -> res_json res = Ok payload ->
    Js.truthy (Js.get (Js.get payload "meta") "success") = false ->
    ListFetchFails (Ok res)
| ListFetchFails_shape res payload :
    res_ok res = true -> res_json res = Ok payload ->
    Js.truthy (Js.get (Js.get payload "meta") "success") = true ->
    Js.is_array (Js.get payload "data") = false ->
    ListFetchFails (Ok res)
| ListFetchFails_network err :
    ListFetchFails (Throw err)
| ListFetchFails_malformed res err :
    res_ok res = true -> res_json res = Throw err ->
    ListFetchFails (Ok res).

(** The notification loop, from world to world: every result has its
    notification sent; one that fails is reported on the console and the
    loop goes on with the next result. *)
Inductive Notified (webhookKey : string) (fetcher : Fetcher)
  : World -> list ServerResult -> World -> Prop :=
| Notified_nil w : Notified webhookKey fetcher w [] w
| Notified_sent w result w1 results w2 :
    sendNotification webhookKey result fetcher w = (Ok tt, w1) ->
    Notified webhookKey fetcher w1 results w2 ->
    Notified webhookKey fetcher w (result :: results) w2
| Notified_failed w result err w1 results w2 :
    sendNotification webhookKey result fetcher w = (Throw err, w1) ->
    Notified webhookKey fetcher
             (mkWorld (requests w1)
                      (console w1
                       ++ [("[" +:+ result_alias result +:+ "] 通知发送失败:", err)]))
             results w2 ->
    Notified webhookKey fetcher w (result :: results) w2.

(** [refreshOne] on the payload of a 2xx response as the specification words
    it: the code is [data.code] if successful, else [meta.message] or the
    literal; the message is the code when failed, else empty. *)
Definition refreshOne_spec (data : JsVal) : Refresh :=
  let success := Js.truthy (Js.get (Js.get data "meta") "success") in
  let code :=
    if success then Js.to_string (Js.get (Js.get data "data") "code")
    else Js.to_string (Js.or (Js.get (Js.get data "meta") "message")
                             (JStr "刷新失败")) in
  mkRefresh code success (if success then EmptyString else code).

(** ** Sample data *)

Definition roomAlpha : JsVal := JObj [("id", JNum 1); ("name", JStr "Room Alpha")].
Definition roomBeta : JsVal := JObj [("id", JNum 2); ("name", JStr "Room Beta")].

Definition eastServer : ServerConfig := mkServer "east" "east.example.com".

Definition emptyWorld : World := mkWorld [] [].

(** A 2xx response carrying the JSON value [payload]. *)
Definition jsonResponse (payload : JsVal) : Response :=
  mkResponse true 200 "OK" (Throw (Error "body already read")) (Ok payload).

(** A failed refresh that still carries a code. *)
Definition failedWithCode : JsVal :=
  JObj [("meta", JObj [("success", JBool false); ("message", JStr "room closed")]);
        ("data", JObj [("code", JStr "1234")])].

(** A successful single-room payload: the code sits in [data.code]. *)
Definition singleSuccess : JsVal :=
  JObj [("meta", JObj [("success", JBool true)]);
        ("data", JObj [("code", JStr "3200")])].


(** A successful batch payload: [data] is the code itself. *)
Definition batchSuccess : JsVal :=
  JObj [("meta", JObj [("success", JBool true)]); ("data", JStr "3200")].

(** A fetcher that gives the same answer to every request. *)
Definition always (answer : Result Response) : Fetcher := fun _ _ => answer.

(** A successful list payload. *)
Definition listPayload (liveList : list JsVal) : JsVal :=
  JObj [("meta", JObj [("success", JBool true)]); ("data", JArr liveList)].

(** A fetcher that answers the list call of a server with [liveList] and
    every other call with [other]. *)
Definition serving (liveList : list JsVal) (other : Result Response) : Fetcher :=
  fun _ req =>
    if Str.includes (req_url req) "/api/live/liveList"
    then Ok (jsonResponse (listPayload liveList))
    else other.

(** Two rooms for one name group, only the first with an id. *)
Definition roomA1 : JsVal := JObj [("id", JNum 7); ("name", JStr "A1")].
Definition roomA2 : JsVal := JObj [("name", JStr "A2")].

(** Two rooms for one name group, only the second with an id. *)
Definition roomB1 : JsVal := JObj [("name", JStr "B1")].
Definition roomB2 : JsVal := JObj [("id", JNum 3); ("name", JStr "B2")].

(** A 2xx response whose body is not JSON. *)
Definition malformedResponse : Response :=
  mkResponse true 200 "OK" (Ok "<html>")
             (Throw (mkExn "SyntaxError" "Unexpected token < in JSON at position 0")).

Definition serverError : Response :=
  mkResponse false 500 "Internal Server Error" (Ok "boom") (Throw (Error "no body")).

(** A network that is down: every call throws. *)
Definition networkDown : Fetcher := always (Throw (mkExn "TypeError" "fetch failed")).

(** A fetcher that serves [liveList] and throws on every other call. *)
Definition servingThenDown (liveList : list JsVal) : Fetcher :=
  serving liveList (Throw (mkExn "TypeError" "fetch failed")).

Definition sampleEnv : Env :=
  {[ "SERVER_ALIAS_LIST" := "east, west";
     "SERVER_URL_LIST" := "east.example.com,west.example.com";
     "LIVE_NAME_LIST" := "Alpha,Beta|Gamma";
     "SERVER_TOKEN" := "tok";
     "WECHAT_WEBHOOK_KEY" := "key" ]}.

Definition sampleConfig : Config :=
  {| servers := [mkServer "east" "east.example.com";
                 mkServer "west" "west.example.com"];
     liveNames := ["Alpha"; "Beta|Gamma"];
     token := "tok";
     webhookKey := "key" |}.

(** The east server lists the two rooms, the west server an empty list;
    refreshes and notifications succeed. *)
Definition twoServers : Fetcher :=
  fun _ req =>
    if Str.includes (req_url req) "https://east.example.com/api/live/liveList"
    then Ok (jsonResponse (listPayload [roomAlpha; roomBeta]))
    else if Str.includes (req_url req) "/api/live/liveList"
    then Ok (jsonResponse (listPayload []))
    else if Str.includes (req_url req) "/api/live/refreshVerifyCode"
    then Ok (jsonResponse singleSuccess)
    else if Str.includes (req_url req) "/api/live/batchRefVerifyCode"
    then Ok (jsonResponse batchSuccess)
    else Ok (jsonResponse (JObj [("errcode", JNum 0); ("errmsg", JStr "ok")])).

(** An environment of the first revision: EAST lacks its token, WEST is
    complete, HEBEI is absent; no webhook key. *)
Definition legacyEnv : Env :=
  {[ "EAST_URL" := "east.example.com"; "EAST_TOKEN" := ""; "EAST_ROOM_ID" := "1";
     "WEST_URL" := "west.example.com"; "WEST_TOKEN" := "t"; "WEST_ROOM_ID" := "2" ]}.

Definition westServer : Legacy.Server :=
  Legacy.mkServer "west" "west.example.com" "t" "2".

(** An environment of the second revision: EAST and WEST complete, and a
    webhook key. *)
Definition revision2Env : Env :=
  {[ "EAST_URL" := "east.example.com"; "EAST_TOKEN" := "s"; "EAST_ROOM_ID" := "1";
     "WEST_URL" := "west.example.com"; "WEST_TOKEN" := "t"; "WEST_ROOM_ID" := "2";
     "WECHAT_WEBHOOK_KEY" := "key" ]}.

Definition eastServer1 : Legacy.Server :=
  Legacy.mkServer "east" "east.example.com" "s" "1".

(** The rooms are refreshed, but the webhook rejects every notification. *)
Definition rejectingWebhook : Fetcher :=
  fun _ req =>
    if Str.includes (req_url req) "/api/live/refreshVerifyCode"
    then Ok (jsonResponse singleSuccess)
    else Ok (jsonResponse (JObj [("errcode", JNum 40001); ("errmsg", JStr "bad key")])).

(** ** The monad *)

Lemma bind_ret_l {A B} (a : A) (k : A -> M B) (w : World) :
  bind (ret a) k w = k a w.
Proof. reflexivity. Qed.

Lemma bind_ret_r {A} (m : M A) (w : World) : bind m ret w = m w.
Proof. unfold bind, ret. destruct (m w) as [[a|e] w']; reflexivity. Qed.

Lemma bind_assoc {A B C} (m : M A) (k : A -> M B) (h : B -> M C) (w : World) :
  bind (bind m k) h w = bind m (fun a => bind (k a) h) w.
Proof. unfold bind. destruct (m w) as [[a|e] w']; reflexivity. Qed.

Lemma try_catch_ret {A} (a : A) (handler : Exn -> M A) (w : World) :
  try_catch (ret a) handler w = (Ok a, w).
Proof. reflexivity. Qed.

Lemma try_catch_throw {A} (e : Exn) (handler : Exn -> M A) (w : World) :
  try_catch (throw e) handler w = handler e w.
Proof. reflexivity. Qed.

(** ** Strings: occurrence *)

Lemma prefix_app (target s : string) :
  String.prefix target s = true <-> exists after, s = target +:+ after.
Proof.
  revert s; induction target as [|c target IH]; intros s; simpl.
  - destruct s; split; eauto.
  - destruct s as [|d s]; simpl.
    + split; [discriminate | intros [after H]; discriminate].
    + destruct (ascii_dec c d) as [->|Hne].
      * rewrite IH. split; intros [after H]; exists after.
        -- now rewrite H.
        -- now injection H.
      * split; [discriminate | intros [after H]].
        injection H as Hc _. congruence.
Qed.

Lemma includes_Contains (s target : string) :
  Str.includes s target = true <-> Contains s target.
Proof.
  unfold Contains. induction s as [|c s IH]; cbn [Str.includes].
  - rewrite orb_false_r, prefix_app. split.
    + intros [after H]. now exists EmptyString, after.
    + intros ([|d before] & after & H); simpl in H; [eauto | discriminate].
  - rewrite orb_true_iff, prefix_app, IH. split.
    + intros [[after H] | (before & after & H)].
      * now exists EmptyString, after.
      * exists (String c before), after. now rewrite H.
    + intros ([|d before] & after & H); simpl in H.
      * left; eauto.
      * right. injection H as _ H. eauto.
Qed.

Lemma Contains_nonempty (s target : string) :
  target <> EmptyString -> Contains s target -> Str.nonempty s = true.
Proof.
  intros Hne (before & after & ->).
  destruct before; [destruct target; [congruence | reflexivity] | reflexivity].
Qed.

Lemma roomMatches_Contains (target : string) (room : JsVal) :
  target <> EmptyString ->
  roomMatches target room = true <-> Contains (roomName room) target.
Proof.
  intros Hne. unfold roomMatches. rewrite andb_true_iff, includes_Contains.
  split; [tauto | intros H; split; [eapply Contains_nonempty; eauto | exact H]].
Qed.

Lemma roomMatches_truthy (target : string) (room : JsVal) :
  roomMatches target room = true -> Js.truthy room = true.
Proof.
  unfold roomMatches, roomName. destruct room; simpl; try discriminate; reflexivity.
Qed.

(** ** [Array.prototype.find] *)

Section Find.
Context {A : Type} (f : A -> bool).

Lemma find_first (l : list A) (x : A) :
  List.find f l = Some x <->
  exists i : nat,
    l !! i = Some x /\ f x = true
    /\ forall (j : nat) (y : A), (j < i)%nat -> l !! j = Some y -> f y = false.
Proof.
  induction l as [|a l IH]; simpl.
  - split; [discriminate | intros (i & H & _); destruct i; discriminate].
  - destruct (f a) eqn:Ha.
    + split.
      * intros [= ->]. exists 0%nat. repeat split; auto. intros j y Hj; lia.
      * intros (i & Hi & Hx & Hbefore). destruct i as [|i]; simpl in Hi.
        -- congruence.
        -- specialize (Hbefore 0%nat a ltac:(lia) eq_refl). congruence.
    + rewrite IH. split.
      * intros (i & Hi & Hx & Hbefore). exists (S i). repeat split; auto.
        intros [|j] y Hj Hy; simpl in Hy; [congruence | eapply Hbefore; eauto; lia].
      * intros (i & Hi & Hx & Hbefore). destruct i as [|i]; simpl in Hi.
        -- congruence.
        -- exists i. repeat split; auto.
           intros j y Hj Hy. apply (Hbefore (S j) y); [lia | exact Hy].
Qed.

Lemma find_nothing (l : list A) :
  List.find f l = None <-> forall x, In x l -> f x = false.
Proof.
  induction l as [|a l IH]; simpl.
  - split; [intros _ x [] | reflexivity].
  - destruct (f a) eqn:Ha.
    + split; [discriminate | intros H]. specialize (H a (or_introl eq_refl)). congruence.
    + rewrite IH. split.
      * intros H x [<- | Hx]; auto.
      * intros H x Hx. apply H. now right.
Qed.
End Find.

(** ** Matching rooms against name groups *)

Lemma find_FirstMatch (liveList : list JsVal) (target : string) (room : JsVal) :
  target <> EmptyString ->
  List.find (roomMatches target) liveList = Some room <->
  FirstMatch liveList target room.
Proof.
  intros Hne. rewrite find_first. unfold FirstMatch.
  split; intros (i & Hi & Hroom & Hbefore); exists i; repeat split; auto.
  - now apply roomMatches_Contains.
  - intros j other Hj Hother Hc. apply roomMatches_Contains in Hc; auto.
    rewrite (Hbefore j other Hj Hother) in Hc. discriminate.
  - now apply roomMatches_Contains.
  - intros j other Hj Hother. destruct (roomMatches target other) eqn:E; auto.
    apply roomMatches_Contains in E; auto. destruct (Hbefore j other Hj Hother E).
Qed.

Lemma find_NoMatch (liveList : list JsVal) (target : string) :
  target <> EmptyString ->
  List.find (roomMatches target) liveList = None <-> NoMatch liveList target.
Proof.
  intros Hne. rewrite find_nothing. unfold NoMatch.
  split; intros H room Hin.
  - intros Hc. apply roomMatches_Contains in Hc; auto.
    rewrite (H room Hin) in Hc. discriminate.
  - destruct (roomMatches target room) eqn:E; auto.
    apply roomMatches_Contains in E; auto. destruct (H room Hin E).
Qed.

Lemma matchTargets_push (liveList : list JsVal) (nameGroup : list string)
    (pushed : list JsVal) :
  matchTargets liveList nameGroup pushed
  = pushed ++ matchTargets liveList nameGroup [].
Proof.
  revert pushed; induction nameGroup as [|target rest IH]; intros pushed; simpl.
  - now rewrite app_nil_r.
  - destruct (List.find (roomMatches target) liveList) as [matched|]; auto.
    destruct (Js.truthy matched); auto.
    rewrite (IH (pushed ++ [matched])), (IH [matched]).
    now rewrite <- app_assoc.
Qed.

Lemma matchTargets_Selected (liveList : list JsVal) (nameGroup : list string)
    (found : list JsVal) :
  Forall (fun target => target <> EmptyString) nameGroup ->
  Selected liveList nameGroup found <-> found = matchTargets liveList nameGroup [].
Proof.
  intros Hne; revert found.
  induction Hne as [|target rest Htarget Hrest IH]; intros found; simpl.
  - split; [now inversion 1 | intros ->; constructor].
  - destruct (List.find (roomMatches target) liveList) as [matched|] eqn:Efind.
    + assert (Htruthy : Js.truthy matched = true).
      { apply List.find_some in Efind. eapply roomMatches_truthy, Efind. }
      rewrite Htruthy, matchTargets_push. simpl.
      split.
      * inversion 1 as [|? room ? found' Hfirst Hsel|? ? ? Hno Hsel]; subst.
        -- apply find_FirstMatch in Hfirst; auto.
           f_equal; [congruence | now apply IH].
        -- apply find_NoMatch in Hno; auto. congruence.
      * intros ->. apply Selected_hit; [now apply find_FirstMatch | now apply IH].
    + split.
      * inversion 1 as [|? room ? found' Hfirst Hsel|? ? ? Hno Hsel]; subst.
        -- apply find_FirstMatch in Hfirst; auto. congruence.
        -- now apply IH.
      * intros ->. apply Selected_miss; [now apply find_NoMatch | now apply IH].
Qed.

Lemma matchGroups_push (liveList : list JsVal) (groups : list (list string))
    (pushed : list MatchedGroup) :
  matchGroups liveList groups pushed = pushed ++ matchGroups liveList groups [].
Proof.
  revert pushed; induction groups as [|nameGroup rest IH]; intros pushed; simpl.
  - now rewrite app_nil_r.
  - destruct (0 <? length (matchTargets liveList nameGroup []))%nat; auto.
    rewrite (IH (pushed ++ _)), (IH [_]). now rewrite <- app_assoc.
Qed.

Lemma matchGroups_MatchedGroups (liveList : list JsVal)
    (groups : list (list string)) (result : list MatchedGroup) :
  Forall (Forall (fun target => target <> EmptyString)) groups ->
  MatchedGroups liveList groups result <-> result = matchGroups liveList groups [].
Proof.
  intros Hne; revert result.
  induction Hne as [|nameGroup rest Hgroup Hrest IH]; intros result; simpl.
  - split; [now inversion 1 | intros ->; constructor].
  - pose proof (matchTargets_Selected liveList nameGroup) as Hsel.
    destruct (matchTargets liveList nameGroup []) as [|room found] eqn:Efound; simpl.
    + split.
      * inversion 1 as [|? found' ? ? Hs Hfound Hm|? ? ? Hs Hm]; subst.
        -- apply Hsel in Hs; auto. congruence.
        -- now apply IH.
      * intros ->. apply MatchedGroups_drop; [now apply Hsel | now apply IH].
    + rewrite matchGroups_push. simpl. split.
      * inversion 1 as [|? found' ? ? Hs Hfound Hm|? ? ? Hs Hm]; subst.
        -- apply Hsel in Hs; auto. subst found'. f_equal. now apply IH.
        -- apply Hsel in Hs; auto. discriminate.
      * intros ->. apply MatchedGroups_keep;
          [now apply Hsel | discriminate | now apply IH].
Qed.

Lemma nonempty_ne (s : string) : Str.nonempty s = true <-> s <> EmptyString.
Proof. destruct s; unfold Str.nonempty; simpl; split; intros; congruence. Qed.

Lemma parseLiveNameGroups_patterns (liveNames : list string) :
  Forall (Forall (fun target => target <> EmptyString))
         (parseLiveNameGroups liveNames).
Proof.
  unfold parseLiveNameGroups. apply List.Forall_forall. intros nameGroup Hin.
  apply in_map_iff in Hin as (item & <- & _).
  apply List.Forall_forall. intros target Htarget. unfold entryPatterns in Htarget.
  apply filter_In in Htarget as [_ Htarget]. now apply nonempty_ne.
Qed.

(** C5. [filterLiveRooms] returns exactly the matched groups of the parsed
    name groups: for every group, pattern by pattern in the group's order, the
    first room in list order whose name ([String(room?.name || "")]) contains
    the pattern as a run of the same characters; a pattern no room matches
    adds nothing, and a group that selects no room is left out of the result. *)
Theorem filterLiveRooms_first_match (liveList : list JsVal)
    (liveNames : list string) (result : list MatchedGroup) :
  MatchedGroups liveList (parseLiveNameGroups liveNames) result
  <-> filterLiveRooms liveList liveNames = result.
Proof.
  unfold filterLiveRooms.
  rewrite matchGroups_MatchedGroups by apply parseLiveNameGroups_patterns.
  split; congruence.
Qed.

Lemma filterLiveRooms_first_match_witness :
  MatchedGroups [roomAlpha; roomBeta] (parseLiveNameGroups ["Beta"])
                [mkGroup ["Beta"] [roomBeta]].
Proof. apply filterLiveRooms_first_match. reflexivity. Defined.

(** Matching compares characters exactly: "beta" does not select "Room Beta". *)
Example filterLiveRooms_case_sensitive :
  filterLiveRooms [roomAlpha; roomBeta] ["beta"] = [].
Proof. reflexivity. Qed.

(** A room can be selected by several patterns, of one group or of several. *)
Example filterLiveRooms_no_exclusivity :
  filterLiveRooms [roomAlpha; roomBeta] ["Room|Alpha"; "Al"]
  = [mkGroup ["Room"; "Alpha"] [roomAlpha; roomAlpha]; mkGroup ["Al"] [roomAlpha]].
Proof. reflexivity. Qed.

(** ** Strings: trimming *)

Lemma byte_at_inside (i : nat) (s : string) :
  Str.byte_at i s <> 256%N -> (i < String.length s)%nat.
Proof.
  unfold Str.byte_at. revert i; induction s as [|c s IH]; intros [|i]; simpl;
    try congruence; try lia.
  intros H. apply IH in H. lia.
Qed.

Lemma byte_at_app (i : nat) (s after : string) :
  Str.byte_at i s <> 256%N -> Str.byte_at i (s +:+ after) = Str.byte_at i s.
Proof.
  unfold Str.byte_at. revert i; induction s as [|c s IH]; intros [|i]; simpl;
    try congruence.
  apply IH.
Qed.

Lemma ws1_inside (a : N) : Str.ws1 a = true -> a <> 256%N.
Proof. intros H ->. discriminate. Qed.

Lemma ws2_inside (a b : N) : Str.ws2 a b = true -> a <> 256%N /\ b <> 256%N.
Proof.
  unfold Str.ws2. rewrite andb_true_iff, !N.eqb_eq. intros [-> ->].
  split; discriminate.
Qed.

Lemma ws3_inside (a b c : N) :
  Str.ws3 a b c = true -> a <> 256%N /\ b <> 256%N /\ c <> 256%N.
Proof.
  unfold Str.ws3.
  rewrite !orb_true_iff, !andb_true_iff, !orb_true_iff, !andb_true_iff,
    !N.eqb_eq, !N.leb_le.
  intros H. repeat split; intros ->; lia.
Qed.

Lemma ws_width_start_le (s : string) :
  (Str.ws_width_start s <= String.length s)%nat.
Proof.
  unfold Str.ws_width_start.
  destruct (Str.ws1 _) eqn:E1.
  { apply ws1_inside, byte_at_inside in E1. lia. }
  destruct (Str.ws2 _ _) eqn:E2.
  { apply ws2_inside in E2 as [_ E2]. apply byte_at_inside in E2. lia. }
  destruct (Str.ws3 _ _ _) eqn:E3; [|lia].
  apply ws3_inside in E3 as (_ & _ & E3). apply byte_at_inside in E3. lia.
Qed.

Lemma ws_width_end_le (r : string) :
  (Str.ws_width_end r <= String.length r)%nat.
Proof.
  unfold Str.ws_width_end.
  destruct (Str.ws1 _) eqn:E1.
  { apply ws1_inside, byte_at_inside in E1. lia. }
  destruct (Str.ws2 _ _) eqn:E2.
  { apply ws2_inside in E2 as [E2 _]. apply byte_at_inside in E2. lia. }
  destruct (Str.ws3 _ _ _) eqn:E3; [|lia].
  apply ws3_inside in E3 as (E3 & _ & _). apply byte_at_inside in E3. lia.
Qed.

Lemma ws_width_start_app (s after : string) :
  Str.ws_width_start (s +:+ after) = O -> Str.ws_width_start s = O.
Proof.
  unfold Str.ws_width_start.
  destruct (Str.ws1 (Str.byte_at 0 s)) eqn:E1.
  { rewrite byte_at_app, E1 by now apply ws1_inside. discriminate. }
  destruct (Str.ws2 (Str.byte_at 0 s) _) eqn:E2.
  { destruct (ws2_inside _ _ E2).
    rewrite !byte_at_app, E1, E2 by assumption. discriminate. }
  destruct (Str.ws3 (Str.byte_at 0 s) _ _) eqn:E3; auto.
  destruct (ws3_inside _ _ _ E3) as (? & ? & ?).
  rewrite !byte_at_app, E1, E2, E3 by assumption. discriminate.
Qed.

Lemma string_app_assoc (a b c : string) : a +:+ b +:+ c = (a +:+ b) +:+ c.
Proof.
  induction a as [|x a IH]; [reflexivity|].
  change (String x (a +:+ b +:+ c) = String x ((a +:+ b) +:+ c)). now f_equal.
Qed.

Lemma length_drop (n : nat) (s : string) :
  String.length (Str.drop n s) = (String.length s - n)%nat.
Proof.
  revert s; induction n as [|n IH]; intros [|c s]; simpl; auto.
Qed.

Lemma drop_suffix (n : nat) (s : string) :
  exists before, s = before +:+ Str.drop n s.
Proof.
  revert s; induction n as [|n IH]; intros s.
  - exists EmptyString. now destruct s.
  - destruct s as [|c s]; [now exists EmptyString|].
    destruct (IH s) as [before H]. exists (String c before).
    change (String c s = String c (before +:+ Str.drop n s)). now f_equal.
Qed.

Section Strip.
Variable width : string -> nat.
Hypothesis width_le : forall s, (width s <= String.length s)%nat.

(** With fuel for every byte, stripping ends on a text of width 0. *)
Lemma strip_done (fuel : nat) (s : string) :
  (String.length s <= fuel)%nat -> width (Str.strip width fuel s) = O.
Proof.
  revert s; induction fuel as [|fuel IH]; intros s Hfuel; cbn [Str.strip].
  - pose proof (width_le s). lia.
  - destruct (width s) as [|w] eqn:Ew; [exact Ew|].
    apply IH. rewrite length_drop. lia.
Qed.

Lemma strip_suffix (fuel : nat) (s : string) :
  exists before, s = before +:+ Str.strip width fuel s.
Proof.
  revert s; induction fuel as [|fuel IH]; intros s; cbn [Str.strip].
  - now exists EmptyString.
  - destruct (width s) as [|w]; [now exists EmptyString|].
    destruct (drop_suffix (S w) s) as [b1 H1].
    destruct (IH (Str.drop (S w) s)) as [b2 H2].
    exists (b1 +:+ b2). rewrite <- string_app_assoc, <- H2. exact H1.
Qed.
End Strip.

Lemma list_ascii_app (a b : string) :
  list_ascii_of_string (a +:+ b) = list_ascii_of_string a ++ list_ascii_of_string b.
Proof.
  induction a as [|c a IH]; [reflexivity|].
  change (c :: list_ascii_of_string (a +:+ b)
          = c :: list_ascii_of_string a ++ list_ascii_of_string b). now f_equal.
Qed.

Lemma string_of_list_app (a b : list ascii) :
  string_of_list_ascii (a ++ b) = string_of_list_ascii a +:+ string_of_list_ascii b.
Proof.
  induction a as [|c a IH]; [reflexivity|].
  change (String c (string_of_list_ascii (a ++ b))
          = String c (string_of_list_ascii a +:+ string_of_list_ascii b)).
  now f_equal.
Qed.

Lemma rev_app (a b : string) : Str.rev (a +:+ b) = Str.rev b +:+ Str.rev a.
Proof. unfold Str.rev. now rewrite list_ascii_app, rev_app_distr, string_of_list_app. Qed.

Lemma rev_rev (s : string) : Str.rev (Str.rev s) = s.
Proof.
  unfold Str.rev.
  now rewrite list_ascii_of_string_of_list_ascii, rev_involutive,
    string_of_list_ascii_of_string.
Qed.

Lemma length_string_of_list (l : list ascii) :
  String.length (string_of_list_ascii l) = length l.
Proof. induction l; simpl; auto. Qed.

Lemma length_list_of_string (s : string) :
  length (list_ascii_of_string s) = String.length s.
Proof. induction s; simpl; auto. Qed.

Lemma length_rev (s : string) : String.length (Str.rev s) = String.length s.
Proof.
  unfold Str.rev.
  now rewrite length_string_of_list, length_rev, length_list_of_string.
Qed.

Lemma trimStart_suffix (s : string) : exists before, s = before +:+ Str.trimStart s.
Proof. apply strip_suffix. Qed.

Lemma trimEnd_prefix (s : string) : exists after, s = Str.trimEnd s +:+ after.
Proof.
  unfold Str.trimEnd.
  destruct (strip_suffix Str.ws_width_end (String.length s) (Str.rev s))
    as [before H].
  exists (Str.rev before).
  rewrite <- rev_app, <- H. symmetry. apply rev_rev.
Qed.

(** What [trim] returns neither starts nor ends with white space. *)
Lemma trim_trimmed (s : string) : Trimmed (Str.trim s).
Proof.
  unfold Trimmed, Str.trim. split.
  - destruct (trimEnd_prefix (Str.trimStart s)) as [after H].
    apply (ws_width_start_app _ after). rewrite <- H.
    apply strip_done; [apply ws_width_start_le | lia].
  - unfold Str.trimEnd at 1. rewrite rev_rev.
    apply strip_done; [apply ws_width_end_le | rewrite length_rev; lia].
Qed.

(** What [trim] returns is a part of the text, in one piece. *)
Lemma trim_Contains (s : string) : Contains s (Str.trim s).
Proof.
  unfold Str.trim.
  destruct (trimStart_suffix s) as [before Hs].
  destruct (trimEnd_prefix (Str.trimStart s)) as [after He].
  exists before, after. now rewrite <- He.
Qed.

(** ** Parsing the name groups *)

Lemma split_cons (sep : ascii) (s : string) :
  exists piece pieces, Str.split sep s = piece :: pieces.
Proof.
  destruct s as [|c s]; simpl; eauto.
  destruct (Ascii.eqb c sep); eauto.
  destruct (Str.split sep s); eauto.
Qed.

Lemma join_cons (sep piece : string) (pieces : list string) :
  pieces <> [] ->
  Str.join sep (piece :: pieces) = piece +:+ sep +:+ Str.join sep pieces.
Proof. destruct pieces; [congruence | reflexivity]. Qed.

(** Joining the pieces with the separator gives the text back. *)
Lemma join_split (sep : ascii) (s : string) :
  Str.join (String sep EmptyString) (Str.split sep s) = s.
Proof.
  induction s as [|c s IH]; simpl; auto.
  destruct (split_cons sep s) as (piece & pieces & E). rewrite E in *.
  destruct (Ascii.eqb c sep) eqn:Ec.
  - apply Ascii.eqb_eq in Ec as ->.
    rewrite join_cons by discriminate. now rewrite IH.
  - destruct pieces as [|q pieces].
    + simpl in *. now rewrite IH.
    + rewrite join_cons in * by discriminate.
      change (String c piece +:+ ?x) with (String c (piece +:+ x)).
      now rewrite IH.
Qed.

(** No piece holds the separator. *)
Lemma split_pieces (sep : ascii) (s : string) :
  Forall (fun piece => ~ In sep (list_ascii_of_string piece)) (Str.split sep s).
Proof.
  induction s as [|c s IH]; simpl.
  - constructor; [intros [] | constructor].
  - destruct (Ascii.eqb c sep) eqn:Ec.
    + constructor; [intros [] | exact IH].
    + destruct (Str.split sep s) as [|piece pieces]; simpl.
      * constructor; [|constructor]. intros [-> | []].
        rewrite Ascii.eqb_refl in Ec. discriminate.
      * inversion IH as [|? ? Hpiece Hpieces]; subst.
        constructor; auto. intros [-> | Hin]; auto.
        rewrite Ascii.eqb_refl in Ec. discriminate.
Qed.

Lemma parseGroups_spec_filter (liveNames : list string) :
  List.filter (fun patterns => (0 <? length patterns)%nat)
              (parseLiveNameGroups liveNames)
  = parseGroups_spec liveNames.
Proof.
  unfold parseLiveNameGroups, parseGroups_spec.
  induction liveNames as [|item rest IH]; simpl; auto.
  destruct item as [|c item]; [exact IH|].
  cbn [Str.nonempty Str.is_empty negb map List.filter].
  now rewrite IH.
Qed.

Lemma parseLiveNameGroups_trimmed (liveNames : list string) :
  Forall (Forall Trimmed) (parseLiveNameGroups liveNames).
Proof.
  unfold parseLiveNameGroups. apply List.Forall_forall. intros nameGroup Hin.
  apply in_map_iff in Hin as (item & <- & _).
  apply List.Forall_forall. intros target Htarget. unfold entryPatterns in Htarget.
  apply filter_In in Htarget as [Htarget _].
  apply in_map_iff in Htarget as (piece & <- & _). apply trim_trimmed.
Qed.

(** C6, as the code has it. [parseLiveNameGroups] drops the entries that are
    the empty string and turns every other entry, in order, into the list of
    its pieces between the [|]s, each trimmed, the empty ones dropped; joined
    with [|] the pieces give the entry back and none holds a [|]. No pattern
    is empty, and none starts or ends with white space. An entry that is not
    empty keeps its group even when no pattern is left in it; without those
    empty groups the result is the one the specification describes. On
    ["A"; "B|C"; ""] the result is the two groups ["A"] and ["B"; "C"]. *)
Theorem parseLiveNameGroups_entries (liveNames : list string) :
  Forall2
    (fun item patterns =>
       exists pieces,
         Str.join "|" pieces = item
         /\ Forall (fun piece => ~ In "|"%char (list_ascii_of_string piece)) pieces
         /\ patterns = List.filter Str.nonempty (map Str.trim pieces))
    (List.filter Str.nonempty liveNames) (parseLiveNameGroups liveNames)
  /\ Forall (Forall (fun pattern => pattern <> EmptyString))
            (parseLiveNameGroups liveNames)
  /\ Forall (Forall Trimmed) (parseLiveNameGroups liveNames)
  /\ List.filter (fun patterns => (0 <? length patterns)%nat)
                 (parseLiveNameGroups liveNames)
     = parseGroups_spec liveNames
  /\ parseLiveNameGroups ["A"; "B|C"; ""] = [["A"]; ["B"; "C"]].
Proof.
  split; [|split; [apply parseLiveNameGroups_patterns|split;
                   [apply parseLiveNameGroups_trimmed|split;
                    [apply parseGroups_spec_filter | reflexivity]]]].
  unfold parseLiveNameGroups.
  induction (List.filter Str.nonempty liveNames) as [|item rest IH]; simpl;
    constructor; auto.
  exists (Str.split "|" item). split; [apply (join_split "|")|].
  split; [apply split_pieces | reflexivity].
Qed.

(** C6, as the specification has it, fails on the entry "|": it gives no
    pattern, yet its (empty) group is in the result. *)
Lemma parseLiveNameGroups_keeps_empty_group :
  entryPatterns "|" = []
  /\ parseLiveNameGroups ["|"] = [[]]
  /\ parseGroups_spec ["|"] = []
  /\ parseLiveNameGroups ["|"] <> parseGroups_spec ["|"].
Proof. repeat split; try reflexivity. discriminate. Qed.

(** ** The refresh calls *)

(** The [?? ... ??] chain of the two refresh functions, on the value read
    first: that value unless it is null or undefined, then [meta.message]
    unless it is null or undefined, then the literal. *)
Lemma coalesce_chain (first metaMessage : JsVal) :
  Js.to_string (Js.coalesce (Js.coalesce first metaMessage) (JStr "刷新失败"))
  = if negb (Js.nullish first) then Js.to_string first
    else if negb (Js.nullish metaMessage) then Js.to_string metaMessage
         else "刷新失败".
Proof.
  unfold Js.coalesce.
  destruct (Js.nullish first) eqn:E1; cbn [negb].
  - destruct (Js.nullish metaMessage) eqn:E2; reflexivity.
  - now rewrite E1.
Qed.

Lemma refreshRoomCode_2xx (server : ServerConfig) (token : string)
    (liveId : JsVal) (fetcher : Fetcher) (w : World) (res : Response) :
  fetcher (requests w) (refreshRoomRequest server token liveId) = Ok res ->
  res_ok res = true ->
  let data := safeJson res in
  let success := Js.truthy (Js.get (Js.get data "meta") "success") in
  let code :=
    Js.to_string
      (Js.coalesce
         (Js.coalesce (Js.get (Js.get data "data") "code")
                      (Js.get (Js.get data "meta") "message"))
         (JStr "刷新失败")) in
  refreshRoomCode server token liveId fetcher w
  = (Ok (mkRefresh code success (if success then EmptyString else code)),
     logged w (refreshRoomRequest server token liveId)).
Proof.
  intros Hfetch Hok. unfold refreshRoomCode, bind, call.
  rewrite Hfetch, Hok. reflexivity.
Qed.





(** C7, as the code has it. For every 2xx response to [refreshRoomCode] the
    call returns an outcome and throws nothing; malformed JSON is read as a
    null payload, which gives the failed outcome with the literal "刷新失败";
    [success] is the truthiness of [meta.success]; the code does not depend on
    [success]: it is [data.code] unless that is null or undefined, then
    [meta.message] unless that is null or undefined, then the literal; the
    message is the code when the outcome failed and empty when it succeeded. *)
Theorem refreshRoomCode_outcome (server : ServerConfig) (token : string)
    (liveId : JsVal) (fetcher : Fetcher) (w : World) (res : Response) :
  fetcher (requests w) (refreshRoomRequest server token liveId) = Ok res ->
  res_ok res = true ->
  exists refresh : Refresh,
    refreshRoomCode server token liveId fetcher w
    = (Ok refresh, logged w (refreshRoomRequest server token liveId))
    /\ (forall err, res_json res = Throw err ->
        refresh = mkRefresh "刷新失败" false "刷新失败")
    /\ (forall payload, res_json res = Ok payload ->
        let dataCode := Js.get (Js.get payload "data") "code" in
        let metaMessage := Js.get (Js.get payload "meta") "message" in
        refresh_success refresh
        = Js.truthy (Js.get (Js.get payload "meta") "success")
        /\ refresh_code refresh
           = if negb (Js.nullish dataCode) then Js.to_string dataCode
             else if negb (Js.nullish metaMessage) then Js.to_string metaMessage
                  else "刷新失败")
    /\ refresh_message refresh
       = if refresh_success refresh then EmptyString else refresh_code refresh.
Proof.
  intros Hfetch Hok.
  rewrite (refreshRoomCode_2xx _ _ _ _ _ _ Hfetch Hok).
  eexists; split; [reflexivity|]. unfold safeJson.
  split; [|split].
  - intros err ->. reflexivity.
  - intros payload ->. cbn zeta. split; [reflexivity|].
    cbn [refresh_code]. apply coalesce_chain.
  - reflexivity.
Qed.

Lemma refreshRoomCode_outcome_witness :
  exists refresh : Refresh,
    refreshRoomCode eastServer "tok" (JNum 1)
                    (always (Ok (jsonResponse singleSuccess))) emptyWorld
    = (Ok refresh, logged emptyWorld (refreshRoomRequest eastServer "tok" (JNum 1)))
    /\ refresh_code refresh = "3200"
    /\ refresh_success refresh = true
    /\ refresh_message refresh = EmptyString.
Proof.
  destruct (refreshRoomCode_outcome eastServer "tok" (JNum 1)
              (always (Ok (jsonResponse singleSuccess))) emptyWorld
              (jsonResponse singleSuccess) eq_refl eq_refl)
    as (refresh & Hrun & _ & Hpayload & Hmessage).
  destruct (Hpayload singleSuccess eq_refl) as [Hsuccess Hcode].
  exists refresh. split; [exact Hrun|]. split; [exact Hcode|].
  split; [exact Hsuccess|]. rewrite Hmessage, Hsuccess. reflexivity.
Defined.

(** C7, as the specification has it, fails on a failed refresh whose payload
    still carries [data.code]: the outcome's code (and message) is that code,
    "1234", where the specification has [meta.message], "room closed". *)
Lemma refreshRoomCode_failed_with_code :
  refreshRoomCode eastServer "tok" (JNum 1)
                  (always (Ok (jsonResponse failedWithCode))) emptyWorld
  = (Ok (mkRefresh "1234" false "1234"),
     logged emptyWorld (refreshRoomRequest eastServer "tok" (JNum 1)))
  /\ refreshOne_spec failedWithCode = mkRefresh "room closed" false "room closed"
  /\ mkRefresh "1234" false "1234" <> refreshOne_spec failedWithCode.
Proof. repeat split; try reflexivity. discriminate. Qed.

(** Where the two agree: a success that carries [data.code], and a failure
    that carries none and whose [meta.message] is absent or not falsy. *)
Lemma refreshRoomCode_meets_spec (server : ServerConfig) (token : string)
    (liveId : JsVal) (fetcher : Fetcher) (w : World) (res : Response)
    (payload : JsVal) :
  fetcher (requests w) (refreshRoomRequest server token liveId) = Ok res ->
  res_ok res = true ->
  res_json res = Ok payload ->
  let success := Js.truthy (Js.get (Js.get payload "meta") "success") in
  let dataCode := Js.get (Js.get payload "data") "code" in
  let metaMessage := Js.get (Js.get payload "meta") "message" in
  (success = true /\ Js.nullish dataCode = false)
  \/ (success = false /\ Js.nullish dataCode = true
      /\ (Js.nullish metaMessage = true \/ Js.truthy metaMessage = true)) ->
  refreshRoomCode server token liveId fetcher w
  = (Ok (refreshOne_spec payload), logged w (refreshRoomRequest server token liveId)).
Proof.
  intros Hfetch Hok Hjson success dataCode metaMessage Hcase.
  rewrite (refreshRoomCode_2xx _ _ _ _ _ _ Hfetch Hok).
  unfold safeJson, refreshOne_spec. rewrite Hjson, coalesce_chain.
  fold success dataCode metaMessage.
  destruct Hcase as [[-> ->] | (-> & -> & Hmessage)]; cbn [negb].
  - reflexivity.
  - unfold Js.or. destruct Hmessage as [Hm | Hm]; rewrite Hm; cbn [negb].
    + destruct metaMessage; try discriminate; reflexivity.
    + destruct metaMessage; try discriminate; reflexivity.
Qed.

(** ** One server *)

Lemma fetchLiveList_world (server : ServerConfig) (token : string)
    (fetcher : Fetcher) (w : World) :
  snd (fetchLiveList server token fetcher w) = logged w (liveListRequest server token).
Proof.
  unfold fetchLiveList, bind, call, settle, throw, ret.
  destruct (fetcher _ _) as [res|err]; simpl; auto.
  destruct (res_ok res); simpl; auto.
  destruct (res_json res) as [data|err]; simpl; auto.
  destruct (Js.truthy _); simpl; auto.
  destruct (Js.get data "data"); reflexivity.
Qed.

Lemma refreshRoomCode_world (server : ServerConfig) (token : string)
    (liveId : JsVal) (fetcher : Fetcher) (w : World) :
  snd (refreshRoomCode server token liveId fetcher w)
  = logged w (refreshRoomRequest server token liveId).
Proof.
  unfold refreshRoomCode, bind, call, throw, ret.
  destruct (fetcher _ _) as [res|err]; simpl; auto.
  destruct (res_ok res); reflexivity.
Qed.

Lemma refreshMultiRoomCode_world (server : ServerConfig) (token : string)
    (liveIds : list JsVal) (fetcher : Fetcher) (w : World) :
  snd (refreshMultiRoomCode server token liveIds fetcher w)
  = logged w (refreshMultiRoomRequest server token liveIds).
Proof.
  unfold refreshMultiRoomCode, bind, call, throw, ret.
  destruct (fetcher _ _) as [res|err]; simpl; auto.
  destruct (res_ok res); reflexivity.
Qed.



Lemma refreshGroup_outcome (server : ServerConfig) (token : string)
    (fetcher : Fetcher) (group : MatchedGroup) (w : World) :
  exists outcome w',
    refreshGroup server token fetcher group w = (Ok outcome, w')
    /\ GroupOutcome server token fetcher group w outcome w'.
Proof.
  unfold refreshGroup.
  destruct (groupLiveIds group) as [|liveId liveIds] eqn:Eids; simpl.
  - do 2 eexists. split; [reflexivity|]. now constructor.
  - unfold try_catch, bind, ret.
    destruct (refreshCall server token fetcher (liveId :: liveIds) w)
      as [[refresh|err] w'] eqn:Ecall; do 2 eexists; (split; [reflexivity|]).
    + apply GroupOutcome_refreshed; rewrite Eids; [discriminate | exact Ecall].
    + apply GroupOutcome_exception; rewrite Eids; [discriminate | exact Ecall].
Qed.

Lemma GroupOutcome_world (server : ServerConfig) (token : string)
    (fetcher : Fetcher) (group : MatchedGroup) (w w' : World)
    (outcome : RefreshOutcome) :
  GroupOutcome server token fetcher group w outcome w' ->
  requests w' = requests w ++ groupRequests server token group
  /\ console w' = console w.
Proof.
  assert (Hcall : forall liveId liveIds,
             snd (refreshCall server token fetcher (liveId :: liveIds) w)
             = mkWorld (requests w
                        ++ match liveIds with
                           | [] => [refreshRoomRequest server token liveId]
                           | _ => [refreshMultiRoomRequest server token
                                     (liveId :: liveIds)]
                           end) (console w)).
  { intros liveId [|other liveIds]; unfold refreshCall; simpl.
    - apply refreshRoomCode_world.
    - apply refreshMultiRoomCode_world. }
  unfold groupRequests.
  destruct 1 as [Hids | refresh w' Hids Hrun | err w' Hids Hrun].
  - rewrite Hids, app_nil_r. auto.
  - destruct (groupLiveIds group) as [|liveId liveIds]; [congruence|].
    specialize (Hcall liveId liveIds). rewrite Hrun in Hcall. simpl in Hcall.
    subst w'. destruct liveIds; auto.
  - destruct (groupLiveIds group) as [|liveId liveIds]; [congruence|].
    specialize (Hcall liveId liveIds). rewrite Hrun in Hcall. simpl in Hcall.
    subst w'. destruct liveIds; auto.
Qed.

Lemma GroupOutcomes_world (server : ServerConfig) (token : string)
    (fetcher : Fetcher) (w w' : World) (groups : list MatchedGroup)
    (outcomes : list RefreshOutcome) :
  GroupOutcomes server token fetcher w groups outcomes w' ->
  requests w' = requests w ++ flat_map (groupRequests server token) groups
  /\ console w' = console w
  /\ length outcomes = length groups.
Proof.
  induction 1 as [w | w group outcome w1 groups outcomes w2 Hone Hrest IH]; simpl.
  - now rewrite app_nil_r.
  - apply GroupOutcome_world in Hone as [Hreq Hcon].
    destruct IH as (IHreq & IHcon & IHlen).
    rewrite IHreq, Hreq, IHcon, Hcon, IHlen, <- app_assoc. auto.
Qed.

Lemma refreshGroups_outcomes (server : ServerConfig) (token : string)
    (fetcher : Fetcher) (matched : list MatchedGroup)
    (pushed : list RefreshOutcome) (w : World) :
  exists outcomes w',
    refreshGroups server token fetcher matched pushed w = (Ok (pushed ++ outcomes), w')
    /\ GroupOutcomes server token fetcher w matched outcomes w'.
Proof.
  revert pushed w; induction matched as [|group rest IH]; intros pushed w; simpl.
  - exists [], w. rewrite app_nil_r. split; [reflexivity | constructor].
  - destruct (refreshGroup_outcome server token fetcher group w)
      as (outcome & w1 & Hrun & Hone).
    destruct (IH (pushed ++ [outcome]) w1) as (outcomes & w2 & Hrest & Hall).
    exists (outcome :: outcomes), w2. unfold bind. rewrite Hrun, Hrest.
    rewrite <- app_assoc. split; [reflexivity | econstructor; eauto].
Qed.

Lemma refreshServer_list_throws (server : ServerConfig) (token : string)
    (liveNames : list string) (fetcher : Fetcher) (w w1 : World) (err : Exn) :
  fetchLiveList server token fetcher w = (Throw err, w1) ->
  refreshServer server token liveNames fetcher w
  = (Ok (mkResult (alias server) [] false
                  (Some ("获取直播列表失败：" +:+ exn_text err))), w1).
Proof.
  intros Hlist. unfold refreshServer, bind, try_catch, ret at 1.
  rewrite Hlist. reflexivity.
Qed.

Lemma refreshServer_no_match (server : ServerConfig) (token : string)
    (liveNames : list string) (fetcher : Fetcher) (w w1 : World)
    (liveList : list JsVal) :
  fetchLiveList server token fetcher w = (Ok liveList, w1) ->
  filterLiveRooms liveList liveNames = [] ->
  refreshServer server token liveNames fetcher w
  = (Ok (mkResult (alias server) [] false (Some noMatchError)), w1).
Proof.
  intros Hlist Hnone. unfold refreshServer, bind, try_catch, ret at 1.
  rewrite Hlist. cbn beta iota. rewrite Hnone. reflexivity.
Qed.

Lemma refreshServer_matched (server : ServerConfig) (token : string)
    (liveNames : list string) (fetcher : Fetcher) (w w1 : World)
    (liveList : list JsVal) :
  fetchLiveList server token fetcher w = (Ok liveList, w1) ->
  filterLiveRooms liveList liveNames <> [] ->
  exists outcomes w',
    GroupOutcomes server token fetcher w1
                  (filterLiveRooms liveList liveNames) outcomes w'
    /\ refreshServer server token liveNames fetcher w
       = (Ok (mkResult (alias server) outcomes
                       ((0 <? length outcomes)%nat && forallb success outcomes)
                       None), w').
Proof.
  intros Hlist Hsome. unfold refreshServer, bind, try_catch, ret at 1.
  rewrite Hlist. cbn beta iota.
  destruct (filterLiveRooms liveList liveNames) as [|group matched] eqn:Ematched;
    [congruence|].
  cbn [length Nat.eqb].
  destruct (refreshGroups_outcomes server token fetcher (group :: matched) [] w1)
    as (outcomes & w' & Hrun & Hall).
  exists outcomes, w'. split; [exact Hall|].
  rewrite Hrun. reflexivity.
Qed.

Lemma all_successful (outcomes : list RefreshOutcome) :
  (0 <? length outcomes)%nat && forallb success outcomes = true
  <-> outcomes <> [] /\ Forall (fun outcome => success outcome = true) outcomes.
Proof.
  rewrite andb_true_iff, forallb_forall, List.Forall_forall.
  destruct outcomes; simpl; split; intros [H1 H2]; split; auto; congruence.
Qed.

(** C3. [refreshServer] always returns a result, and in it [success] is true
    exactly when [rooms] is not empty and every outcome in it is successful.
    When the list was fetched and no name group matched a room, the result
    has [success] false and the error "未匹配到任何需要刷码的直播间". *)
Theorem refreshServer_success (server : ServerConfig) (token : string)
    (liveNames : list string) (fetcher : Fetcher) (w : World) :
  exists (result : ServerResult) (w' : World),
    refreshServer server token liveNames fetcher w = (Ok result, w')
    /\ (result_success result = true
        <-> result_rooms result <> []
            /\ Forall (fun outcome => success outcome = true) (result_rooms result))
    /\ (forall liveList w1,
          fetchLiveList server token fetcher w = (Ok liveList, w1) ->
          filterLiveRooms liveList liveNames = [] ->
          result_success result = false
          /\ result_error result = Some noMatchError).
Proof.
  destruct (fetchLiveList server token fetcher w) as [[liveList|err] w1] eqn:Hlist.
  - destruct (filterLiveRooms liveList liveNames) as [|group matched] eqn:Ematched.
    + rewrite (refreshServer_no_match _ _ _ _ _ _ _ Hlist Ematched).
      do 2 eexists. split; [reflexivity|]. simpl. split.
      * split; [discriminate | intros [H _]; congruence].
      * auto.
    + destruct (refreshServer_matched server token liveNames fetcher w w1 liveList
                  Hlist) as (outcomes & w' & _ & Hrun).
      { rewrite Ematched. discriminate. }
      rewrite Hrun. do 2 eexists. split; [reflexivity|]. simpl. split.
      * apply all_successful.
      * intros liveList' w1' [= <- <-]. congruence.
  - rewrite (refreshServer_list_throws _ _ _ _ _ _ _ Hlist).
    do 2 eexists. split; [reflexivity|]. simpl. split.
    + split; [discriminate | intros [H _]; congruence].
    + discriminate.
Qed.

(** A server whose list holds no room of the configured names. *)
Lemma refreshServer_success_witness :
  exists (result : ServerResult) (w' : World),
    refreshServer eastServer "tok" ["Gamma"]
                  (serving [roomAlpha; roomBeta] (Ok (jsonResponse singleSuccess)))
                  emptyWorld = (Ok result, w')
    /\ result_success result = false
    /\ result_error result = Some noMatchError.
Proof.
  destruct (refreshServer_success eastServer "tok" ["Gamma"]
              (serving [roomAlpha; roomBeta] (Ok (jsonResponse singleSuccess)))
              emptyWorld) as (result & w' & Hrun & _ & Hnone).
  exists result, w'. split; [exact Hrun|].
  exact (Hnone [roomAlpha; roomBeta]
               (logged emptyWorld (liveListRequest eastServer "tok"))
               eq_refl eq_refl).
Defined.

(** The list fetch throws exactly in the cases of [ListFetchFails]. *)
Lemma fetchLiveList_fails (server : ServerConfig) (token : string)
    (fetcher : Fetcher) (w : World) :
  ListFetchFails (fetcher (requests w) (liveListRequest server token))
  <-> exists err,
        fetchLiveList server token fetcher w
        = (Throw err, logged w (liveListRequest server token)).
Proof.
  unfold fetchLiveList, bind, call, settle, throw, ret.
  destruct (fetcher (requests w) (liveListRequest server token)) as [res|err0];
    [|split; [eauto | constructor]].
  destruct (res_ok res) eqn:Hok; cbn [negb];
    [|split; [eauto | intros _; now apply ListFetchFails_status]].
  destruct (res_json res) as [payload|err0] eqn:Hjson;
    [|split; [eauto | intros _; eapply ListFetchFails_malformed; eauto]].
  destruct (Js.truthy (Js.get (Js.get payload "meta") "success")) eqn:Hsuccess;
    cbn [negb];
    [|split; [eauto | intros _; eapply ListFetchFails_upstream; eauto]].
  destruct (Js.get payload "data") eqn:Hdata;
    try (split; [eauto | intros _; eapply ListFetchFails_shape; eauto;
                         now rewrite Hdata]).
  split; [|intros [err [=]]].
  inversion 1 as [? Hok' | ? payload' Hok' Hjson' Hsuccess'
                  | ? payload' Hok' Hjson' Hsuccess' Hshape | |? ? Hok' Hjson'];
    subst; try congruence.
  assert (payload' = payload) by congruence. subst payload'.
  rewrite Hdata in Hshape. discriminate.
Qed.

(** C4. When the list fetch of a server fails (a status that is not 2xx, a
    falsy [meta.success], a [data] that is not an array, or a failure of the
    transport), [refreshServer] returns the result with the error set (the
    list-failure text and its reason), no rooms and [success] false, and the
    only request it has made is the list request: no refresh call. *)
Theorem refreshServer_list_failure (server : ServerConfig) (token : string)
    (liveNames : list string) (fetcher : Fetcher) (w : World) :
  ListFetchFails (fetcher (requests w) (liveListRequest server token)) ->
  exists reason : string,
    refreshServer server token liveNames fetcher w
    = (Ok (mkResult (alias server) [] false
                    (Some ("获取直播列表失败：" +:+ reason))),
       logged w (liveListRequest server token)).
Proof.
  intros Hfails.
  apply fetchLiveList_fails in Hfails as [err Hlist].
  exists (exn_text err). now apply refreshServer_list_throws.
Qed.

Lemma refreshServer_list_failure_witness :
  exists reason : string,
    refreshServer eastServer "tok" ["Alpha"] (always (Ok serverError)) emptyWorld
    = (Ok (mkResult "east" [] false (Some ("获取直播列表失败：" +:+ reason))),
       logged emptyWorld (liveListRequest eastServer "tok")).
Proof.
  apply (refreshServer_list_failure eastServer "tok" ["Alpha"]
           (always (Ok serverError)) emptyWorld).
  apply ListFetchFails_status. reflexivity.
Defined.

(** The three failures the specification names, on sample responses. *)
Example refreshServer_list_failures :
  refreshServer eastServer "tok" ["Alpha"] (always (Ok serverError)) emptyWorld
  = (Ok (mkResult "east" [] false
           (Some "获取直播列表失败：500 Internal Server Error: boom")),
     logged emptyWorld (liveListRequest eastServer "tok"))
  /\ refreshServer eastServer "tok" ["Alpha"]
                   (always (Ok (jsonResponse failedWithCode))) emptyWorld
     = (Ok (mkResult "east" [] false (Some "获取直播列表失败：room closed")),
        logged emptyWorld (liveListRequest eastServer "tok"))
  /\ refreshServer eastServer "tok" ["Alpha"]
                   (always (Ok (jsonResponse batchSuccess))) emptyWorld
     = (Ok (mkResult "east" [] false (Some "获取直播列表失败：直播列表数据格式异常")),
        logged emptyWorld (liveListRequest eastServer "tok")).
Proof. repeat split. Qed.

(** When every matched room carries a usable id, the ids are as many as the
    rooms. *)
Lemma groupLiveIds_all (group : MatchedGroup) :
  Forall (fun room => Js.truthy (Js.get room "id") = true) (rooms group) ->
  groupLiveIds group = map (fun room => Js.get room "id") (rooms group).
Proof.
  unfold groupLiveIds. induction 1 as [|room rest Hroom Hrest IH]; simpl; auto.
  now rewrite Hroom, IH.
Qed.

(** C1, as the code has it. Once the list is fetched, [refreshServer] makes,
    after the list request, the refresh requests of the matched groups in
    order and nothing else, and returns one outcome per matched group. For a
    group the number of rooms of it that carry a usable id decides
    ([groupRequests]): none, no request; one, one request to
    /api/live/refreshVerifyCode ([refreshRoomCode]); several, one request to
    /api/live/batchRefVerifyCode for all of them ([refreshMultiRoomCode]). *)
Theorem refreshServer_dispatch (server : ServerConfig) (token : string)
    (liveNames : list string) (fetcher : Fetcher) (w w1 : World)
    (liveList : list JsVal) :
  fetchLiveList server token fetcher w = (Ok liveList, w1) ->
  exists (result : ServerResult) (w' : World),
    refreshServer server token liveNames fetcher w = (Ok result, w')
    /\ requests w'
       = requests w
         ++ liveListRequest server token
            :: flat_map (groupRequests server token)
                        (filterLiveRooms liveList liveNames)
    /\ length (result_rooms result) = length (filterLiveRooms liveList liveNames).
Proof.
  intros Hlist.
  pose proof (fetchLiveList_world server token fetcher w) as Hw1.
  rewrite Hlist in Hw1. simpl in Hw1.
  destruct (filterLiveRooms liveList liveNames) as [|group matched] eqn:Ematched.
  - rewrite (refreshServer_no_match _ _ _ _ _ _ _ Hlist Ematched).
    do 2 eexists. split; [reflexivity|]. subst w1. auto.
  - destruct (refreshServer_matched server token liveNames fetcher w w1 liveList
                Hlist) as (outcomes & w' & Hall & Hrun).
    { rewrite Ematched. discriminate. }
    rewrite Ematched in Hall.
    apply GroupOutcomes_world in Hall as (Hreq & _ & Hlen).
    rewrite Hrun. do 2 eexists. split; [reflexivity|].
    split; [|exact Hlen].
    rewrite Hreq. subst w1. unfold logged. cbn [requests].
    now rewrite <- app_assoc.
Qed.

(** Both rooms with an id: one request, to the batch endpoint. *)
Lemma refreshServer_dispatch_witness :
  exists (result : ServerResult) (w' : World),
    refreshServer eastServer "tok" ["Alpha|Beta"]
                  (serving [roomAlpha; roomBeta] (Ok (jsonResponse batchSuccess)))
                  emptyWorld = (Ok result, w')
    /\ requests w'
       = [liveListRequest eastServer "tok";
          refreshMultiRoomRequest eastServer "tok" [JNum 1; JNum 2]]
    /\ length (result_rooms result) = 1%nat.
Proof.
  exact (refreshServer_dispatch eastServer "tok" ["Alpha|Beta"]
           (serving [roomAlpha; roomBeta] (Ok (jsonResponse batchSuccess)))
           emptyWorld (logged emptyWorld (liveListRequest eastServer "tok"))
           [roomAlpha; roomBeta] eq_refl).
Defined.

(** C1, as the specification has it, fails where a matched room has no id.
    A group of two rooms of which one has an id is refreshed through the
    single-room endpoint; a group of one room without id is not refreshed. *)
Lemma refreshServer_dispatch_by_room_count_fails :
  filterLiveRooms [roomA1; roomA2] ["A1|A2"]
  = [mkGroup ["A1"; "A2"] [roomA1; roomA2]]
  /\ map req_url
         (requests (snd (refreshServer eastServer "tok" ["A1|A2"]
                           (serving [roomA1; roomA2]
                                    (Ok (jsonResponse singleSuccess)))
                           emptyWorld)))
     = ["https://east.example.com/api/live/liveList";
        "https://east.example.com/api/live/refreshVerifyCode"]
  /\ filterLiveRooms [roomA1; roomA2] ["A2"] = [mkGroup ["A2"] [roomA2]]
  /\ map req_url
         (requests (snd (refreshServer eastServer "tok" ["A2"]
                           (serving [roomA1; roomA2]
                                    (Ok (jsonResponse singleSuccess)))
                           emptyWorld)))
     = ["https://east.example.com/api/live/liveList"].
Proof. repeat split. Qed.

(** The loop body on a group whose refresh call throws. *)
Lemma refreshGroup_exception (server : ServerConfig) (token : string)
    (fetcher : Fetcher) (group : MatchedGroup) (w w' : World) (err : Exn) :
  groupLiveIds group <> [] ->
  refreshCall server token fetcher (groupLiveIds group) w = (Throw err, w') ->
  refreshGroup server token fetcher group w
  = (Ok (mkOutcome (displayName group) (exceptionMessage err) false
                   (exceptionMessage err)), w').
Proof.
  intros Hids Hcall. unfold refreshGroup.
  destruct (groupLiveIds group) as [|liveId liveIds]; [congruence|].
  cbn [length Nat.eqb]. unfold try_catch, bind. now rewrite Hcall.
Qed.

(** In a run of the loop, the outcome of a group without a usable id. *)
Lemma GroupOutcomes_missing_id (server : ServerConfig) (token : string)
    (fetcher : Fetcher) (w w' : World) (groups : list MatchedGroup)
    (outcomes : list RefreshOutcome) :
  GroupOutcomes server token fetcher w groups outcomes w' ->
  forall (i : nat) (group : MatchedGroup),
    groups !! i = Some group ->
    groupLiveIds group = [] ->
    outcomes !! i
    = Some (mkOutcome (displayName group) missingIdMessage false missingIdMessage).
Proof.
  induction 1 as [w | w group0 outcome w1 groups outcomes w2 Hone Hrest IH];
    intros i group Hi Hids.
  - destruct i; discriminate.
  - destruct i as [|i]; simpl in *; [|eauto].
    injection Hi as ->.
    destruct Hone as [_ | refresh w' Hsome _ | err w' Hsome _];
      [reflexivity | congruence | congruence].
Qed.

(** C8, as the code has it. Once the list is fetched, the outcomes in the
    result of [refreshServer] are those of the matched groups, in order, each
    obtained as [GroupOutcome] says: a group none of whose rooms carries a
    usable id gets the failed outcome with the text "缺少直播间 ID，无法刷码" and
    no call is made for it; for any other group the refresh call is made, and
    an exception it throws becomes a failed outcome whose code and message
    are "刷码异常：" followed by the exception's text. The last two parts
    spell the two rules out: on the outcome at a group's position in the
    result, and on the loop body ([refreshGroup]) at any world. *)
Theorem refreshServer_group_outcomes (server : ServerConfig) (token : string)
    (liveNames : list string) (fetcher : Fetcher) (w w1 : World)
    (liveList : list JsVal) :
  fetchLiveList server token fetcher w = (Ok liveList, w1) ->
  exists (result : ServerResult) (w' : World),
    refreshServer server token liveNames fetcher w = (Ok result, w')
    /\ GroupOutcomes server token fetcher w1
                     (filterLiveRooms liveList liveNames) (result_rooms result) w'
    /\ (forall (i : nat) (group : MatchedGroup),
          filterLiveRooms liveList liveNames !! i = Some group ->
          groupLiveIds group = [] ->
          result_rooms result !! i
          = Some (mkOutcome (displayName group) missingIdMessage false
                            missingIdMessage))
    /\ (forall (group : MatchedGroup) (w0 w0' : World) (err : Exn),
          groupLiveIds group <> [] ->
          refreshCall server token fetcher (groupLiveIds group) w0 = (Throw err, w0') ->
          refreshGroup server token fetcher group w0
          = (Ok (mkOutcome (displayName group) ("刷码异常：" +:+ exn_text err) false
                           ("刷码异常：" +:+ exn_text err)), w0')).
Proof.
  intros Hlist.
  assert (Hsteps : exists result w',
             refreshServer server token liveNames fetcher w = (Ok result, w')
             /\ GroupOutcomes server token fetcher w1
                  (filterLiveRooms liveList liveNames) (result_rooms result) w').
  { destruct (filterLiveRooms liveList liveNames) as [|group matched] eqn:Ematched.
    - rewrite (refreshServer_no_match _ _ _ _ _ _ _ Hlist Ematched).
      do 2 eexists. split; [reflexivity | constructor].
    - destruct (refreshServer_matched server token liveNames fetcher w w1 liveList
                  Hlist) as (outcomes & w' & Hall & Hrun).
      { rewrite Ematched. discriminate. }
      rewrite Ematched in Hall. rewrite Hrun.
      do 2 eexists. split; [reflexivity | exact Hall]. }
  destruct Hsteps as (result & w' & Hrun & Hall).
  exists result, w'. split; [exact Hrun|]. split; [exact Hall|]. split.
  - eapply GroupOutcomes_missing_id; eauto.
  - apply refreshGroup_exception.
Qed.

(** One group without a usable id, one whose refresh call throws. *)
Lemma refreshServer_group_outcomes_witness :
  exists (result : ServerResult) (w' : World),
    refreshServer eastServer "tok" ["A2"; "A1"] (servingThenDown [roomA1; roomA2])
                  emptyWorld = (Ok result, w')
    /\ GroupOutcomes eastServer "tok" (servingThenDown [roomA1; roomA2])
                     (logged emptyWorld (liveListRequest eastServer "tok"))
                     (filterLiveRooms [roomA1; roomA2] ["A2"; "A1"])
                     (result_rooms result) w'
    /\ result_rooms result !! 0%nat
       = Some (mkOutcome "A2" missingIdMessage false missingIdMessage).
Proof.
  destruct (refreshServer_group_outcomes eastServer "tok" ["A2"; "A1"]
              (servingThenDown [roomA1; roomA2]) emptyWorld
              (logged emptyWorld (liveListRequest eastServer "tok"))
              [roomA1; roomA2] eq_refl)
    as (result & w' & Hrun & Hall & Hmissing & _).
  exists result, w'. split; [exact Hrun|]. split; [exact Hall|].
  exact (Hmissing 0%nat (mkGroup ["A2"] [roomA2]) eq_refl eq_refl).
Defined.

Example refreshServer_missing_id_and_exception :
  refreshServer eastServer "tok" ["A2"; "A1"] (servingThenDown [roomA1; roomA2])
                emptyWorld
  = (Ok (mkResult "east"
           [mkOutcome "A2" missingIdMessage false missingIdMessage;
            mkOutcome "A1" "刷码异常：fetch failed" false "刷码异常：fetch failed"]
           false None),
     mkWorld [liveListRequest eastServer "tok";
              refreshRoomRequest eastServer "tok" (JNum 7)] []).
Proof. reflexivity. Qed.

(** C8, as the specification has it, fails on a group that has a room without
    id next to one with an id: the group is refreshed over the network, here
    with success. And a 2xx refresh response whose body is not JSON raises no
    exception: the outcome's message is the plain "刷新失败". *)
Lemma refreshServer_refreshes_partial_group :
  filterLiveRooms [roomB1; roomB2] ["B1|B2"]
  = [mkGroup ["B1"; "B2"] [roomB1; roomB2]]
  /\ Js.get roomB1 "id" = JUndefined
  /\ refreshServer eastServer "tok" ["B1|B2"]
                   (serving [roomB1; roomB2] (Ok (jsonResponse singleSuccess)))
                   emptyWorld
     = (Ok (mkResult "east" [mkOutcome "B1|B2" "3200" true EmptyString] true None),
        mkWorld [liveListRequest eastServer "tok";
                 refreshRoomRequest eastServer "tok" (JNum 3)] [])
  /\ refreshServer eastServer "tok" ["B2"]
                   (serving [roomB1; roomB2] (Ok malformedResponse)) emptyWorld
     = (Ok (mkResult "east" [mkOutcome "B2" "刷新失败" false "刷新失败"] false None),
        mkWorld [liveListRequest eastServer "tok";
                 refreshRoomRequest eastServer "tok" (JNum 3)] []).
Proof. repeat split. Qed.

(** ** The whole run *)

(** [refreshServer] throws nothing: every failure ends in its result. *)
Lemma refreshServer_returns (server : ServerConfig) (token : string)
    (liveNames : list string) (fetcher : Fetcher) (w : World) :
  exists result w',
    refreshServer server token liveNames fetcher w = (Ok result, w')
    /\ result_alias result = alias server.
Proof.
  destruct (fetchLiveList server token fetcher w) as [[liveList|err] w1] eqn:Hlist.
  - destruct (filterLiveRooms liveList liveNames) as [|group matched] eqn:Ematched.
    + rewrite (refreshServer_no_match _ _ _ _ _ _ _ Hlist Ematched). eauto.
    + destruct (refreshServer_matched server token liveNames fetcher w w1 liveList
                  Hlist) as (outcomes & w' & _ & Hrun).
      { rewrite Ematched. discriminate. }
      rewrite Hrun. eauto.
  - rewrite (refreshServer_list_throws _ _ _ _ _ _ _ Hlist). eauto.
Qed.

(** [refreshAll] returns one result per server, in the order of the servers. *)
Lemma refreshEach_returns (servers : list ServerConfig) (token : string)
    (liveNames : list string) (fetcher : Fetcher)
    (pushed : list ServerResult) (w : World) :
  exists results w',
    refreshEach servers token liveNames fetcher pushed w
    = (Ok (pushed ++ results), w')
    /\ map result_alias results = map alias servers.
Proof.
  revert pushed w; induction servers as [|server rest IH]; intros pushed w; simpl.
  - exists [], w. now rewrite app_nil_r.
  - destruct (refreshServer_returns server token liveNames fetcher w)
      as (result & w1 & Hrun & Halias).
    destruct (IH (pushed ++ [result]) w1) as (results & w' & Hrest & Haliases).
    unfold bind. rewrite Hrun, Hrest, <- app_assoc.
    exists (result :: results), w'. split; [reflexivity|].
    simpl. now rewrite Halias, Haliases.
Qed.

Lemma sendNotification_world (webhookKey : string) (serverResult : ServerResult)
    (fetcher : Fetcher) (w : World) :
  snd (sendNotification webhookKey serverResult fetcher w)
  = logged w (notificationRequest webhookKey serverResult).
Proof.
  unfold sendNotification, bind, call, throw, ret.
  destruct (fetcher _ _) as [res|err]; simpl; auto.
  destruct (res_ok res); simpl; auto.
  destruct (Js.not_zero _); reflexivity.
Qed.

(** The notification loop runs as [Notified] says and ends normally. *)
Lemma notifyEach_Notified (webhookKey : string) (fetcher : Fetcher)
    (results : list ServerResult) (w : World) :
  exists w',
    notifyEach webhookKey fetcher results w = (Ok tt, w')
    /\ Notified webhookKey fetcher w results w'.
Proof.
  revert w; induction results as [|result rest IH]; intros w; simpl.
  - exists w. split; [reflexivity | constructor].
  - unfold bind, try_catch, console_error.
    destruct (sendNotification webhookKey result fetcher w) as [[[]|err] w1] eqn:Hsend.
    + destruct (IH w1) as (w' & Hrest & Hall).
      exists w'. split; [exact Hrest | eapply Notified_sent; eauto].
    + match goal with
      | |- context [notifyEach _ _ rest ?w2] =>
          destruct (IH w2) as (w' & Hrest & Hall)
      end.
      exists w'. split; [exact Hrest | eapply Notified_failed; eauto].
Qed.

(** One request per result, in order, whatever becomes of each. *)
Lemma Notified_requests (webhookKey : string) (fetcher : Fetcher)
    (results : list ServerResult) (w w' : World) :
  Notified webhookKey fetcher w results w' ->
  requests w' = requests w ++ map (notificationRequest webhookKey) results.
Proof.
  induction 1 as [w | w result w1 results w2 Hsend Hrest IH
                  | w result err w1 results w2 Hsend Hrest IH]; simpl.
  - now rewrite app_nil_r.
  - pose proof (sendNotification_world webhookKey result fetcher w) as Hw1.
    rewrite Hsend in Hw1. simpl in Hw1. subst w1.
    rewrite IH. simpl. now rewrite <- app_assoc.
  - pose proof (sendNotification_world webhookKey result fetcher w) as Hw1.
    rewrite Hsend in Hw1. simpl in Hw1. subst w1.
    rewrite IH. simpl. now rewrite <- app_assoc.
Qed.

(** C9. With a configuration that loads, [run] returns the results of
    [refreshAll], one per server in the configured order, and throws nothing. After the refreshes it goes through the
    results in their order as [Notified] says: a notification that fails is
    reported on the console and the next one is sent all the same. So the
    requests after the refreshes are exactly one notification request per
    result, in the order of the results, whatever the fetcher answers. *)
Theorem run_notifies_every_result (penv : option Env) (env overrides : Env)
    (fetcher : Fetcher) (w : World) (config : Config) :
  loadConfig penv env overrides = Ok config ->
  exists (results : list ServerResult) (w1 w' : World),
    refreshAll (servers config) (token config) (liveNames config) fetcher w
    = (Ok results, w1)
    /\ map result_alias results = map alias (servers config)
    /\ run penv env overrides fetcher w = (Ok results, w')
    /\ Notified (webhookKey config) fetcher w1 results w'
    /\ requests w'
       = requests w1 ++ map (notificationRequest (webhookKey config)) results.
Proof.
  intros Hconfig. unfold run, refreshAll, bind, settle. rewrite Hconfig.
  destruct (refreshEach_returns (servers config) (token config) (liveNames config)
              fetcher [] w) as (results & w1 & Hall & Haliases).
  simpl in Hall. rewrite Hall.
  destruct (notifyEach_Notified (webhookKey config) fetcher results w1)
    as (w' & Hnotify & Hsteps).
  rewrite Hnotify. exists results, w1, w'.
  repeat split; auto. eapply Notified_requests; eauto.
Qed.

Example loadConfig_sample : loadConfig None sampleEnv ∅ = Ok sampleConfig.
Proof. vm_compute. reflexivity. Qed.

(** Every call fails, the notifications too: both are still sent. *)
Lemma run_notifies_every_result_witness :
  exists (results : list ServerResult) (w1 w' : World),
    refreshAll (servers sampleConfig) "tok" ["Alpha"; "Beta|Gamma"] networkDown
               emptyWorld = (Ok results, w1)
    /\ map result_alias results = ["east"; "west"]
    /\ run None sampleEnv ∅ networkDown emptyWorld = (Ok results, w')
    /\ Notified "key" networkDown w1 results w'
    /\ requests w' = requests w1 ++ map (notificationRequest "key") results.
Proof.
  apply (run_notifies_every_result None sampleEnv ∅ networkDown emptyWorld
           sampleConfig).
  vm_compute. reflexivity.
Defined.

(** Two servers, one refreshed with success, one with an empty list: two
    results, two notifications, and the run ends normally. *)
Example run_two_servers :
  let '(outcome, w') := run None sampleEnv ∅ twoServers emptyWorld in
  outcome
  = Ok [mkResult "east"
          [mkOutcome "Alpha" "3200" true EmptyString;
           mkOutcome "Beta|Gamma" "3200" true EmptyString] true None;
        mkResult "west" [] false (Some noMatchError)]
  /\ map req_url (requests w')
     = ["https://east.example.com/api/live/liveList";
        "https://east.example.com/api/live/refreshVerifyCode";
        "https://east.example.com/api/live/refreshVerifyCode";
        "https://west.example.com/api/live/liveList";
        "https://qyapi.weixin.qq.com/cgi-bin/webhook/send?key=key";
        "https://qyapi.weixin.qq.com/cgi-bin/webhook/send?key=key"]
  /\ console w' = [].
Proof. vm_compute. repeat split. Qed.


(** * More of the worker *)

(** ** Configuration *)

Lemma strip_id (width : string -> nat) (fuel : nat) (s : string) :
  width s = O -> Str.strip width fuel s = s.
Proof. intros H. destruct fuel; simpl; [reflexivity | now rewrite H]. Qed.

(** Trimming leaves a trimmed text as it is. *)
Lemma trim_id (s : string) : Trimmed s -> Str.trim s = s.
Proof.
  intros [Hstart Hend]. unfold Str.trim, Str.trimStart, Str.trimEnd.
  rewrite (strip_id _ _ s Hstart), (strip_id _ _ (Str.rev s) Hend).
  apply rev_rev.
Qed.

Lemma split_plain (sep : ascii) (s : string) :
  ~ In sep (list_ascii_of_string s) -> Str.split sep s = [s].
Proof.
  induction s as [|c s IH]; simpl; intros Hno; [reflexivity|].
  destruct (Ascii.eqb c sep) eqn:Ec.
  - apply Ascii.eqb_eq in Ec. tauto.
  - rewrite IH by tauto. reflexivity.
Qed.

Lemma split_app (sep : ascii) (s rest : string) :
  ~ In sep (list_ascii_of_string s) ->
  Str.split sep (s +:+ String sep rest) = s :: Str.split sep rest.
Proof.
  induction s as [|c s IH]; intros Hno.
  - change (Str.split sep (String sep rest) = EmptyString :: Str.split sep rest).
    simpl. now rewrite Ascii.eqb_refl.
  - change (Str.split sep (String c (s +:+ String sep rest))
            = String c s :: Str.split sep rest).
    simpl in Hno. simpl. destruct (Ascii.eqb c sep) eqn:Ec.
    + apply Ascii.eqb_eq in Ec. tauto.
    + rewrite IH by tauto. reflexivity.
Qed.

(** Splitting what was joined gives the pieces back. *)
Lemma split_join (sep : ascii) (pieces : list string) :
  pieces <> [] ->
  Forall (fun piece => ~ In sep (list_ascii_of_string piece)) pieces ->
  Str.split sep (Str.join (String sep EmptyString) pieces) = pieces.
Proof.
  induction pieces as [|piece rest IH]; intros Hne Hno; [congruence|].
  inversion Hno as [|? ? Hpiece Hrest]; subst.
  destruct rest as [|next rest].
  - now apply split_plain.
  - rewrite join_cons by discriminate.
    change (piece +:+ String sep EmptyString +:+ ?x) with (piece +:+ String sep x).
    rewrite split_app by assumption. f_equal. apply IH; [discriminate | assumption].
Qed.

Lemma Contains_chars (s part : string) (c : ascii) :
  Contains s part ->
  In c (list_ascii_of_string part) -> In c (list_ascii_of_string s).
Proof.
  intros (before & after & ->) Hin.
  rewrite !list_ascii_app, !in_app_iff. tauto.
Qed.

Lemma trimmed_pieces (sep : ascii) (s : string) :
  Forall (ListItem sep)
         (List.filter Str.nonempty (map Str.trim (Str.split sep s))).
Proof.
  apply List.Forall_forall. intros item Hin.
  apply filter_In in Hin as [Hin Hne].
  apply in_map_iff in Hin as (piece & <- & Hpiece).
  split; [now apply nonempty_ne|]. split; [apply trim_trimmed|].
  intros Hc. apply (Contains_chars piece) in Hc; [|apply trim_Contains].
  pose proof (split_pieces sep s) as Hall.
  rewrite List.Forall_forall in Hall. exact (Hall piece Hpiece Hc).
Qed.

Lemma trimmed_pieces_join (sep : ascii) (items : list string) :
  Forall (ListItem sep) items ->
  List.filter Str.nonempty
    (map Str.trim (Str.split sep (Str.join (String sep EmptyString) items)))
  = items.
Proof.
  intros Hitems. destruct items as [|item rest]; [reflexivity|].
  rewrite split_join; [|discriminate|].
  - induction Hitems as [|x l (Hne & Htrim & _) Hl IH]; [reflexivity|].
    cbn [map List.filter]. rewrite (trim_id x Htrim).
    apply nonempty_ne in Hne. rewrite Hne. now f_equal.
  - eapply List.Forall_impl; [|exact Hitems]. intros x (_ & _ & Hno). exact Hno.
Qed.

(** X1. [parseList] returns only items that are not empty, carry no outer
    white space and hold no comma; and it reads a comma-joined list of such
    items back as that list (the empty list from the empty text). *)
Theorem parseList_round_trip (items : list string) :
  Forall (ListItem ",") items ->
  parseList (Some (Str.join "," items)) = items
  /\ forall value, Forall (ListItem ",") (parseList value).
Proof.
  intros Hitems. split.
  - apply (trimmed_pieces_join "," items Hitems).
  - intros value. apply trimmed_pieces.
Qed.

Lemma parseList_round_trip_witness :
  parseList (Some "east,west") = ["east"; "west"]
  /\ forall value, Forall (ListItem ",") (parseList value).
Proof.
  apply (parseList_round_trip ["east"; "west"]).
  repeat constructor; try discriminate; vm_compute; intuition discriminate.
Defined.

Lemma env_get_nonempty (env : Env) (key v : string) :
  env_get env key = Some v <-> env !! key = Some v /\ v <> EmptyString.
Proof.
  unfold env_get. destruct (env !! key) as [x|]; [|split; [discriminate | intros [[=] _]]].
  destruct (Str.nonempty x) eqn:Hx.
  - apply nonempty_ne in Hx. split; [intros [= <-]; auto | intros [[= <-] _]; auto].
  - split; [discriminate | intros [[= <-] Hne]].
    apply nonempty_ne in Hne. congruence.
Qed.

(** X2. [getEnv] never returns the empty string; a non-empty override wins
    over [env] and [process.env]; an override that is absent or empty is
    passed over, then [env] decides if it has a non-empty value; and no
    value is found only if none of the three holds a non-empty one. *)
Theorem getEnv_priority (penv : option Env) (env overrides : Env) (key : string) :
  (forall v, getEnv penv env overrides key = Some v -> v <> EmptyString)
  /\ (forall v, overrides !! key = Some v -> v <> EmptyString ->
                getEnv penv env overrides key = Some v)
  /\ (forall v, (overrides !! key = None \/ overrides !! key = Some EmptyString) ->
                env !! key = Some v -> v <> EmptyString ->
                getEnv penv env overrides key = Some v)
  /\ (getEnv penv env overrides key = None
      <-> env_get overrides key = None /\ env_get env key = None
          /\ (forall p, penv = Some p -> env_get p key = None)).
Proof.
  unfold getEnv. split; [|split; [|split; [|split]]].
  - intros v. destruct (env_get overrides key) eqn:E1.
    { intros [= <-]. now apply env_get_nonempty in E1. }
    destruct (env_get env key) eqn:E2.
    { intros [= <-]. now apply env_get_nonempty in E2. }
    destruct penv as [p|]; [|discriminate].
    intros E3. now apply env_get_nonempty in E3.
  - intros v Hv Hne.
    now rewrite (proj2 (env_get_nonempty overrides key v) (conj Hv Hne)).
  - intros v Hov Hv Hne.
    assert (env_get overrides key = None) as ->.
    { unfold env_get. destruct Hov as [-> | ->]; reflexivity. }
    now rewrite (proj2 (env_get_nonempty env key v) (conj Hv Hne)).
  - destruct (env_get overrides key); [discriminate|].
    destruct (env_get env key); [discriminate|].
    intros Hnone. repeat split. intros p ->. exact Hnone.
  - intros (-> & -> & Hp). destruct penv as [p|]; auto.
Qed.

Lemma getEnv_priority_witness :
  getEnv (Some {[ "SERVER_TOKEN" := "from-process" ]})
         {[ "SERVER_TOKEN" := "from-env" ]} {[ "SERVER_TOKEN" := "" ]}
         "SERVER_TOKEN" = Some "from-env".
Proof.
  apply (getEnv_priority (Some {[ "SERVER_TOKEN" := "from-process" ]})
           {[ "SERVER_TOKEN" := "from-env" ]} {[ "SERVER_TOKEN" := "" ]}
           "SERVER_TOKEN").
  - right. vm_compute. reflexivity.
  - vm_compute. reflexivity.
  - discriminate.
Defined.

Lemma imap_pair_nth (aliasList urlList : list string) :
  length aliasList = length urlList ->
  imap (fun idx alias => mkServer alias (nth idx urlList EmptyString)) aliasList
  = zip_with mkServer aliasList urlList.
Proof.
  revert urlList; induction aliasList as [|a aliases IH]; intros [|u urls] Hlen;
    try discriminate; [reflexivity|].
  cbn [imap zip_with nth]. f_equal.
  rewrite <- (IH urls) by (simpl in Hlen; lia).
  apply imap_ext. reflexivity.
Qed.

Lemma map_alias_zip (aliasList urlList : list string) :
  length aliasList = length urlList ->
  map alias (zip_with mkServer aliasList urlList) = aliasList.
Proof.
  revert urlList; induction aliasList as [|a l IH]; intros [|u us] Hlen;
    try discriminate; auto.
  simpl. f_equal. apply IH. simpl in Hlen. lia.
Qed.

Lemma map_url_zip (aliasList urlList : list string) :
  length aliasList = length urlList ->
  map url (zip_with mkServer aliasList urlList) = urlList.
Proof.
  revert urlList; induction aliasList as [|a l IH]; intros [|u us] Hlen;
    try discriminate; auto.
  simpl. f_equal. apply IH. simpl in Hlen. lia.
Qed.

Lemma length_zero_nil {A} (l : list A) : (length l =? 0)%nat = true <-> l = [].
Proof. destruct l; simpl; split; congruence. Qed.

(** X3. A configuration that [loadConfig] returns pairs the aliases and the
    urls by position, one server per alias, with as many urls as aliases and
    at least one; its name list is not empty; its token and its webhook key
    are not empty and carry no outer white space. *)
Theorem loadConfig_ok (penv : option Env) (env overrides : Env) (config : Config) :
  loadConfig penv env overrides = Ok config ->
  let aliasList := parseList (getEnv penv env overrides "SERVER_ALIAS_LIST") in
  let urlList := parseList (getEnv penv env overrides "SERVER_URL_LIST") in
  servers config = zip_with mkServer aliasList urlList
  /\ map alias (servers config) = aliasList
  /\ map url (servers config) = urlList
  /\ servers config <> []
  /\ liveNames config = parseList (getEnv penv env overrides "LIVE_NAME_LIST")
  /\ liveNames config <> []
  /\ (token config <> EmptyString /\ Trimmed (token config))
  /\ (webhookKey config <> EmptyString /\ Trimmed (webhookKey config)).
Proof.
  intros Hload aliasList urlList. unfold loadConfig in Hload.
  fold aliasList urlList in Hload.
  destruct (length aliasList =? 0)%nat eqn:Ea; [discriminate|].
  destruct (length urlList =? 0)%nat eqn:Eu; [discriminate|].
  destruct (length aliasList =? length urlList)%nat eqn:Elen; [|discriminate].
  cbn [negb] in Hload.
  destruct (length (parseList (getEnv penv env overrides "LIVE_NAME_LIST")) =? 0)%nat
    eqn:En; [discriminate|].
  destruct (Str.is_empty (Str.trim _)) eqn:Et in Hload; [discriminate|].
  destruct (Str.is_empty (Str.trim _)) eqn:Ek in Hload; [discriminate|].
  injection Hload as <-. cbn [servers liveNames token webhookKey].
  apply Nat.eqb_eq in Elen.
  rewrite (imap_pair_nth aliasList urlList Elen).
  assert (Hservers : zip_with mkServer aliasList urlList <> []).
  { destruct aliasList, urlList; simpl in *; congruence. }
  repeat split; try apply trim_trimmed; auto.
  - now apply map_alias_zip.
  - now apply map_url_zip.
  - intros Hnil. rewrite Hnil in En. discriminate.
  - intros Hnil. rewrite Hnil in Et. discriminate.
  - intros Hnil. rewrite Hnil in Ek. discriminate.
Qed.

Lemma loadConfig_ok_witness :
  servers sampleConfig
  = zip_with mkServer (parseList (getEnv None sampleEnv ∅ "SERVER_ALIAS_LIST"))
                      (parseList (getEnv None sampleEnv ∅ "SERVER_URL_LIST"))
  /\ map alias (servers sampleConfig)
     = parseList (getEnv None sampleEnv ∅ "SERVER_ALIAS_LIST")
  /\ map url (servers sampleConfig)
     = parseList (getEnv None sampleEnv ∅ "SERVER_URL_LIST")
  /\ servers sampleConfig <> []
  /\ liveNames sampleConfig = parseList (getEnv None sampleEnv ∅ "LIVE_NAME_LIST")
  /\ liveNames sampleConfig <> []
  /\ (token sampleConfig <> EmptyString /\ Trimmed (token sampleConfig))
  /\ (webhookKey sampleConfig <> EmptyString /\ Trimmed (webhookKey sampleConfig)).
Proof.
  apply (loadConfig_ok None sampleEnv ∅ sampleConfig).
  vm_compute. reflexivity.
Defined.

(** X4. [loadConfig] returns a configuration exactly when there is an alias,
    as many urls as aliases, a name, a token and a webhook key (the last two
    after trimming). With aliases and urls both given but not as many of one
    as of the other, it throws the count-mismatch error, whatever the other
    settings are. *)
Theorem loadConfig_checks (penv : option Env) (env overrides : Env) :
  let aliasList := parseList (getEnv penv env overrides "SERVER_ALIAS_LIST") in
  let urlList := parseList (getEnv penv env overrides "SERVER_URL_LIST") in
  let liveNames := parseList (getEnv penv env overrides "LIVE_NAME_LIST") in
  let token := Str.trim (default EmptyString (getEnv penv env overrides "SERVER_TOKEN")) in
  let webhookKey :=
    Str.trim (default EmptyString (getEnv penv env overrides "WECHAT_WEBHOOK_KEY")) in
  ((exists config, loadConfig penv env overrides = Ok config)
   <-> aliasList <> [] /\ length aliasList = length urlList /\ liveNames <> []
       /\ token <> EmptyString /\ webhookKey <> EmptyString)
  /\ (aliasList <> [] -> urlList <> [] -> length aliasList <> length urlList ->
      loadConfig penv env overrides
      = Throw (Error "SERVER_ALIAS_LIST 与 SERVER_URL_LIST 数量不一致")).
Proof.
  intros aliasList urlList liveNames token webhookKey. unfold loadConfig.
  fold aliasList urlList liveNames token webhookKey.
  destruct (length aliasList =? 0)%nat eqn:Ea.
  { apply length_zero_nil in Ea. split.
    - split; [intros [config [=]] | tauto].
    - tauto. }
  assert (Ha : aliasList <> []).
  { intros H. apply length_zero_nil in H. congruence. }
  destruct (length urlList =? 0)%nat eqn:Eu.
  { apply length_zero_nil in Eu. split.
    - split; [intros [config [=]] | intros (_ & Hlen & _)].
      rewrite Eu in Hlen. destruct aliasList; [congruence | discriminate].
    - tauto. }
  destruct (length aliasList =? length urlList)%nat eqn:Elen; cbn [negb].
  2:{ apply Nat.eqb_neq in Elen. split; [|reflexivity].
      split; [intros [config [=]] | tauto]. }
  apply Nat.eqb_eq in Elen. split; [|tauto].
  destruct (length liveNames =? 0)%nat eqn:En.
  { apply length_zero_nil in En. split; [intros [config [=]] | tauto]. }
  assert (Hn : liveNames <> []).
  { intros H. apply length_zero_nil in H. congruence. }
  destruct token as [|c tok] eqn:Et; cbn [Str.is_empty].
  { split; [intros [config [=]] | tauto]. }
  destruct webhookKey as [|d key] eqn:Ek; cbn [Str.is_empty].
  { split; [intros [config [=]] | tauto]. }
  split; [intros _ | eauto]. repeat split; auto; discriminate.
Qed.

(** One alias for two urls. *)
Lemma loadConfig_checks_witness :
  loadConfig None (<["SERVER_ALIAS_LIST" := "east"]> sampleEnv) ∅
  = Throw (Error "SERVER_ALIAS_LIST 与 SERVER_URL_LIST 数量不一致").
Proof.
  apply (loadConfig_checks None (<["SERVER_ALIAS_LIST" := "east"]> sampleEnv) ∅);
    vm_compute; discriminate.
Defined.

Lemma getEnv_env_override (penv : option Env) (env overrides : Env)
    (key value : string) :
  overrides !! key = Some value -> value <> EmptyString ->
  getEnv penv env overrides key = Some value.
Proof.
  intros Hv Hne. unfold getEnv.
  now rewrite (proj2 (env_get_nonempty overrides key value) (conj Hv Hne)).
Qed.

Lemma mapIf_lookup (params : list (string * string)) (map : Env)
    (key param k : string) :
  mapIf params map key param !! k
  = if String.eqb key k
    then match queryValue params param with
         | Some value => Some value
         | None => map !! k
         end
    else map !! k.
Proof.
  unfold mapIf, queryValue.
  destruct (String.eqb_spec key k) as [->|Hne].
  - destruct (params_get params param) as [value|]; [|reflexivity].
    destruct (Str.nonempty value); [|reflexivity]. apply lookup_insert_eq.
  - destruct (params_get params param) as [value|]; [|reflexivity].
    destruct (Str.nonempty value); [|reflexivity]. now apply lookup_insert_ne.
Qed.

(** X5. The overrides read from a query hold, for each of the five settings,
    the first value of its parameter when that value is not empty, and
    nothing else: no other key, no empty value. Such an override is what
    [getEnv] returns for the setting, whatever the environment holds. *)
Theorem parseOverridesFromUrl_lookup (params : list (string * string)) :
  (forall key param, In (key, param) overrideKeys ->
      parseOverridesFromUrl params !! key = queryValue params param)
  /\ (forall key value, parseOverridesFromUrl params !! key = Some value ->
        value <> EmptyString /\ In key (map fst overrideKeys))
  /\ (forall penv env key param value,
        In (key, param) overrideKeys ->
        params_get params param = Some value -> value <> EmptyString ->
        getEnv penv env (parseOverridesFromUrl params) key = Some value).
Proof.
  assert (Hkeys : forall key param, In (key, param) overrideKeys ->
            parseOverridesFromUrl params !! key = queryValue params param).
  { intros key param Hin. unfold parseOverridesFromUrl.
    rewrite !mapIf_lookup, lookup_empty.
    simpl in Hin.
    destruct Hin as [[= <- <-] | [[= <- <-] | [[= <- <-] | [[= <- <-] | [[= <- <-] | []]]]]];
      cbn [String.eqb Ascii.eqb Bool.eqb];
      repeat match goal with
             | |- context [queryValue params ?p] => destruct (queryValue params p)
             end; reflexivity. }
  assert (Hvalue : forall param value, queryValue params param = Some value ->
            value <> EmptyString).
  { unfold queryValue. intros param value.
    destruct (params_get params param) as [v|]; [|discriminate].
    destruct (Str.nonempty v) eqn:Hv; [|discriminate].
    intros [= <-]. now apply nonempty_ne. }
  split; [exact Hkeys|]. split.
  - intros key value. unfold parseOverridesFromUrl.
    rewrite !mapIf_lookup, lookup_empty.
    repeat match goal with
           | |- context [String.eqb ?a key] =>
               destruct (String.eqb_spec a key) as [<-|?]
           end;
      repeat match goal with
             | |- context [queryValue params ?p] =>
                 destruct (queryValue params p) eqn:?
             end;
      try discriminate;
      intros [= <-]; (split; [eapply Hvalue; eassumption | simpl; tauto]).
  - intros penv env key param value Hin Hget Hne.
    apply getEnv_env_override; [|exact Hne].
    rewrite (Hkeys key param Hin). unfold queryValue. rewrite Hget.
    apply nonempty_ne in Hne. now rewrite Hne.
Qed.

(** A token given twice in the query, and set in the environment too. *)
Lemma parseOverridesFromUrl_lookup_witness :
  getEnv None {[ "SERVER_TOKEN" := "from-env" ]}
         (parseOverridesFromUrl
            [("server_token", "first"); ("x", "y"); ("server_token", "second")])
         "SERVER_TOKEN" = Some "first".
Proof.
  destruct (parseOverridesFromUrl_lookup
              [("server_token", "first"); ("x", "y"); ("server_token", "second")])
    as (_ & _ & Hget).
  apply (Hget None {[ "SERVER_TOKEN" := "from-env" ]}
              "SERVER_TOKEN" "server_token" "first").
  - simpl. tauto.
  - reflexivity.
  - discriminate.
Defined.

(** ** Matching, once more *)

Lemma matchTargets_rooms (liveList : list JsVal) (nameGroup : list string) :
  (length (matchTargets liveList nameGroup []) <= length nameGroup)%nat
  /\ Forall (fun room =>
               In room liveList
               /\ exists target, In target nameGroup
                                 /\ roomMatches target room = true)
            (matchTargets liveList nameGroup []).
Proof.
  induction nameGroup as [|target rest [IHlen IHall]]; simpl.
  - split; [lia | constructor].
  - assert (Hrest : Forall (fun room =>
               In room liveList
               /\ exists t, (target = t \/ In t rest) /\ roomMatches t room = true)
              (matchTargets liveList rest [])).
    { eapply List.Forall_impl; [|exact IHall].
      intros room (Hin & t & Ht & Hm). eauto 6. }
    destruct (List.find (roomMatches target) liveList) as [matched|] eqn:Efind;
      [|split; [lia | exact Hrest]].
    apply List.find_some in Efind as [Hin Hmatch].
    rewrite (roomMatches_truthy _ _ Hmatch), matchTargets_push.
    split; [simpl; lia|]. constructor; [eauto 6 | exact Hrest].
Qed.

Lemma matchGroups_groups (liveList : list JsVal) (groups : list (list string)) :
  (length (matchGroups liveList groups []) <= length groups)%nat
  /\ Forall (fun group =>
               In (names group) groups
               /\ rooms group = matchTargets liveList (names group) []
               /\ rooms group <> [])
            (matchGroups liveList groups []).
Proof.
  induction groups as [|nameGroup rest [IHlen IHall]]; simpl.
  - split; [lia | constructor].
  - assert (Hrest : Forall (fun group =>
               (nameGroup = names group \/ In (names group) rest)
               /\ rooms group = matchTargets liveList (names group) []
               /\ rooms group <> [])
              (matchGroups liveList rest [])).
    { eapply List.Forall_impl; [|exact IHall]. intros group (? & ? & ?). auto. }
    destruct (matchTargets liveList nameGroup []) as [|room found] eqn:Efound;
      cbn [length Nat.ltb Nat.leb].
    + split; [lia | exact Hrest].
    + rewrite matchGroups_push. split; [simpl; lia|].
      constructor; [|exact Hrest]. cbn [names rooms].
      split; [now left|]. split; [now rewrite Efound | discriminate].
Qed.

(** X6. Every group that [filterLiveRooms] returns stands for one of the
    parsed name groups and has at least one room and at most one per pattern;
    each of its rooms is a room of the list whose name contains one of the
    group's patterns. There are no more groups than non-empty entries, and
    none when the room list is empty. *)
Theorem filterLiveRooms_groups (liveList : list JsVal) (liveNames : list string) :
  Forall (fun group =>
            In (names group) (parseLiveNameGroups liveNames)
            /\ rooms group <> []
            /\ (length (rooms group) <= length (names group))%nat
            /\ Forall (fun room =>
                         In room liveList
                         /\ exists target, In target (names group)
                                           /\ Contains (roomName room) target)
                      (rooms group))
         (filterLiveRooms liveList liveNames)
  /\ (length (filterLiveRooms liveList liveNames)
      <= length (List.filter Str.nonempty liveNames))%nat
  /\ filterLiveRooms [] liveNames = [].
Proof.
  unfold filterLiveRooms.
  destruct (matchGroups_groups liveList (parseLiveNameGroups liveNames))
    as [Hlen Hall].
  split; [|split].
  - eapply List.Forall_impl; [|exact Hall].
    intros group (Hnames & Hrooms & Hne).
    destruct (matchTargets_rooms liveList (names group)) as [Hcount Hfound].
    rewrite <- Hrooms in Hcount, Hfound.
    repeat split; auto.
    eapply List.Forall_impl; [|exact Hfound].
    intros room (Hin & target & Htarget & Hmatch). split; [exact Hin|].
    exists target. split; [exact Htarget|].
    unfold roomMatches in Hmatch. apply andb_true_iff in Hmatch as [_ Hmatch].
    now apply includes_Contains.
  - unfold parseLiveNameGroups in Hlen. now rewrite length_map in Hlen.
  - clear. induction (parseLiveNameGroups liveNames) as [|nameGroup rest IH];
      simpl; auto.
    assert (matchTargets [] nameGroup [] = []) as ->; [|exact IH].
    clear. induction nameGroup; simpl; auto.
Qed.

(** The names of a matched group are the patterns of an entry. *)
Lemma filterLiveRooms_names (liveList : list JsVal) (liveNames : list string) :
  Forall (fun group => exists item, names group = entryPatterns item)
         (filterLiveRooms liveList liveNames).
Proof.
  unfold filterLiveRooms.
  destruct (matchGroups_groups liveList (parseLiveNameGroups liveNames))
    as [_ Hall].
  eapply List.Forall_impl; [|exact Hall].
  intros group (Hnames & _). unfold parseLiveNameGroups in Hnames.
  apply in_map_iff in Hnames as (item & Hitem & _). eauto.
Qed.

(** ** The calls to a server, once more *)

(** X7. [fetchLiveList] returns rooms exactly when the response is 2xx, its
    body is JSON with a truthy [meta.success], and [data] is an array: it
    then returns the items of that array as they are. Whatever happens, it
    makes the list request and no other. *)
Theorem fetchLiveList_returns (server : ServerConfig) (token : string)
    (fetcher : Fetcher) (w : World) :
  (forall liveList w',
      fetchLiveList server token fetcher w = (Ok liveList, w')
      <-> w' = logged w (liveListRequest server token)
          /\ exists res payload,
               fetcher (requests w) (liveListRequest server token) = Ok res
               /\ res_ok res = true
               /\ res_json res = Ok payload
               /\ Js.truthy (Js.get (Js.get payload "meta") "success") = true
               /\ Js.get payload "data" = JArr liveList)
  /\ snd (fetchLiveList server token fetcher w)
     = logged w (liveListRequest server token).
Proof.
  split; [|apply fetchLiveList_world].
  intros liveList w'.
  unfold fetchLiveList, bind, call, settle, throw, ret.
  destruct (fetcher (requests w) (liveListRequest server token)) as [res|err].
  2:{ split; [discriminate | intros (_ & res & payload & [=] & _)]. }
  destruct (res_ok res) eqn:Hok; cbn [negb].
  2:{ split; [discriminate | intros (_ & res' & payload & [= <-] & ? & _)].
      congruence. }
  destruct (res_json res) as [payload|err] eqn:Hjson.
  2:{ split; [discriminate | intros (_ & res' & payload & [= <-] & _ & ? & _)].
      congruence. }
  destruct (Js.truthy (Js.get (Js.get payload "meta") "success")) eqn:Hsuccess;
    cbn [negb].
  2:{ split; [discriminate|].
      intros (_ & res' & payload' & [= <-] & _ & Hp & ? & _).
      rewrite Hjson in Hp. injection Hp as <-. congruence. }
  destruct (Js.get payload "data") eqn:Hdata;
    try (split; [discriminate|];
         intros (_ & res' & payload' & [= <-] & _ & Hp & _ & Hd);
         rewrite Hjson in Hp; injection Hp as <-; congruence).
  split.
  - intros [= <- <-]. split; [reflexivity|]. exists res, payload. auto.
  - intros (-> & res' & payload' & [= <-] & _ & Hp & _ & Hd).
    rewrite Hjson in Hp. injection Hp as <-. congruence.
Qed.





(** An upstream that reports failure: no rooms are returned. *)
Lemma fetchLiveList_returns_witness :
  fetchLiveList eastServer "tok" (always (Ok (jsonResponse (listPayload [roomAlpha]))))
                emptyWorld
  = (Ok [roomAlpha], logged emptyWorld (liveListRequest eastServer "tok")).
Proof.
  apply (fetchLiveList_returns eastServer "tok"
           (always (Ok (jsonResponse (listPayload [roomAlpha])))) emptyWorld).
  split; [reflexivity|].
  exists (jsonResponse (listPayload [roomAlpha])), (listPayload [roomAlpha]).
  repeat split.
Defined.

(** ** One server, once more *)

(** The three ways [refreshServer] ends. *)
Lemma refreshServer_cases (server : ServerConfig) (token : string)
    (liveNames : list string) (fetcher : Fetcher) (w : World) :
  (exists err w1,
      fetchLiveList server token fetcher w = (Throw err, w1)
      /\ refreshServer server token liveNames fetcher w
         = (Ok (mkResult (alias server) [] false
                         (Some ("获取直播列表失败：" +:+ exn_text err))), w1))
  \/ (exists liveList w1,
        fetchLiveList server token fetcher w = (Ok liveList, w1)
        /\ filterLiveRooms liveList liveNames = []
        /\ refreshServer server token liveNames fetcher w
           = (Ok (mkResult (alias server) [] false (Some noMatchError)), w1))
  \/ (exists liveList w1 outcomes w',
        fetchLiveList server token fetcher w = (Ok liveList, w1)
        /\ filterLiveRooms liveList liveNames <> []
        /\ GroupOutcomes server token fetcher w1
                         (filterLiveRooms liveList liveNames) outcomes w'
        /\ refreshServer server token liveNames fetcher w
           = (Ok (mkResult (alias server) outcomes
                           ((0 <? length outcomes)%nat && forallb success outcomes)
                           None), w')).
Proof.
  destruct (fetchLiveList server token fetcher w) as [[liveList|err] w1] eqn:Hlist.
  - destruct (filterLiveRooms liveList liveNames) as [|group matched] eqn:Ematched.
    + right; left. exists liveList, w1. repeat split; auto.
      eapply refreshServer_no_match; eauto.
    + right; right.
      destruct (refreshServer_matched server token liveNames fetcher w w1 liveList
                  Hlist) as (outcomes & w' & Hall & Hrun).
      { rewrite Ematched. discriminate. }
      rewrite Ematched in Hall.
      exists liveList, w1, outcomes, w'. rewrite Ematched.
      split; [reflexivity|]. split; [discriminate|]. split; assumption.
  - left. exists err, w1. split; [reflexivity|]. now apply refreshServer_list_throws.
Qed.

Lemma refreshCall_message (server : ServerConfig) (token : string)
    (fetcher : Fetcher) (liveIds : list JsVal) (w w' : World) (refresh : Refresh) :
  refreshCall server token fetcher liveIds w = (Ok refresh, w') ->
  refresh_message refresh
  = if refresh_success refresh then EmptyString else refresh_code refresh.
Proof.
  unfold refreshCall, refreshRoomCode, refreshMultiRoomCode, bind, call, throw, ret.
  destruct (length liveIds =? 1)%nat;
    destruct (fetcher _ _) as [res|err]; try discriminate;
    destruct (res_ok res); cbn [negb]; try discriminate;
    intros [= <- _]; reflexivity.
Qed.

Lemma GroupOutcome_shape (server : ServerConfig) (token : string)
    (fetcher : Fetcher) (group : MatchedGroup) (w w' : World)
    (outcome : RefreshOutcome) :
  GroupOutcome server token fetcher group w outcome w' ->
  name outcome = displayName group
  /\ message outcome = if success outcome then EmptyString else code outcome.
Proof.
  destruct 1 as [Hids | refresh w' Hids Hrun | err w' Hids Hrun];
    cbn [name message success code]; split; try reflexivity.
  eapply refreshCall_message; eauto.
Qed.

Lemma GroupOutcomes_shape (server : ServerConfig) (token : string)
    (fetcher : Fetcher) (w w' : World) (groups : list MatchedGroup)
    (outcomes : list RefreshOutcome) :
  GroupOutcomes server token fetcher w groups outcomes w' ->
  Forall2 (fun group outcome =>
             name outcome = displayName group
             /\ message outcome
                = if success outcome then EmptyString else code outcome)
          groups outcomes.
Proof.
  induction 1 as [w | w group outcome w1 groups outcomes w2 Hone Hrest IH];
    constructor; auto.
  eapply GroupOutcome_shape; eauto.
Qed.

(** The patterns of an entry, joined with [|], parse back to themselves. *)
Lemma entryPatterns_join (item : string) :
  entryPatterns (Str.join "|" (entryPatterns item)) = entryPatterns item.
Proof.
  unfold entryPatterns at 1. apply (trimmed_pieces_join "|").
  apply trimmed_pieces.
Qed.

(** X10. Once the list is fetched, the outcomes of [refreshServer] stand one
    for one, in order, for the matched groups, and the name of each is the
    group's patterns joined with [|]: parsed as a name-list entry, it gives
    the patterns of the group back. *)
Theorem refreshServer_outcome_names (server : ServerConfig) (token : string)
    (liveNames : list string) (fetcher : Fetcher) (w w1 : World)
    (liveList : list JsVal) :
  fetchLiveList server token fetcher w = (Ok liveList, w1) ->
  exists (result : ServerResult) (w' : World),
    refreshServer server token liveNames fetcher w = (Ok result, w')
    /\ Forall2 (fun group outcome =>
                  name outcome = Str.join "|" (names group)
                  /\ entryPatterns (name outcome) = names group)
               (filterLiveRooms liveList liveNames) (result_rooms result).
Proof.
  intros Hlist.
  destruct (refreshServer_cases server token liveNames fetcher w)
    as [(err & w2 & Hthrow & _)
       | [(liveList' & w2 & Hlist' & Hnone & Hrun)
         | (liveList' & w2 & outcomes & w' & Hlist' & Hsome & Hall & Hrun)]].
  - congruence.
  - assert (liveList' = liveList) by congruence. subst liveList'.
    rewrite Hrun, Hnone. do 2 eexists. split; [reflexivity | constructor].
  - assert (liveList' = liveList) by congruence. subst liveList'.
    rewrite Hrun. do 2 eexists. split; [reflexivity|]. cbn [result_rooms].
    apply GroupOutcomes_shape in Hall.
    pose proof (filterLiveRooms_names liveList liveNames) as Hnames.
    clear -Hall Hnames.
    induction Hall as [|group outcome groups outcomes [Hname _] Hrest IH];
      constructor.
    + inversion Hnames as [|? ? (item & Hitem) _]; subst.
      split; [exact Hname|]. rewrite Hname. unfold displayName.
      rewrite Hitem. apply entryPatterns_join.
    + apply IH. now inversion Hnames.
Qed.

Lemma refreshServer_outcome_names_witness :
  exists (result : ServerResult) (w' : World),
    refreshServer eastServer "tok" [" Alpha | Beta "]
                  (serving [roomAlpha; roomBeta] (Ok (jsonResponse batchSuccess)))
                  emptyWorld = (Ok result, w')
    /\ Forall2 (fun group outcome =>
                  name outcome = Str.join "|" (names group)
                  /\ entryPatterns (name outcome) = names group)
               (filterLiveRooms [roomAlpha; roomBeta] [" Alpha | Beta "])
               (result_rooms result).
Proof.
  exact (refreshServer_outcome_names eastServer "tok" [" Alpha | Beta "]
           (serving [roomAlpha; roomBeta] (Ok (jsonResponse batchSuccess)))
           emptyWorld (logged emptyWorld (liveListRequest eastServer "tok"))
           [roomAlpha; roomBeta] eq_refl).
Defined.

Lemma GroupOutcomes_nonempty (server : ServerConfig) (token : string)
    (fetcher : Fetcher) (w w' : World) (groups : list MatchedGroup)
    (outcomes : list RefreshOutcome) :
  GroupOutcomes server token fetcher w groups outcomes w' ->
  groups <> [] -> outcomes <> [].
Proof. destruct 1; [congruence | discriminate]. Qed.

(** X11. In every result of [refreshServer]: the alias is the server's; the
    error is set exactly when there is no outcome, is then not empty, and
    [success] is false; and every outcome has an empty message if it is
    successful and its code as message if it is not. *)
Theorem refreshServer_result_invariants (server : ServerConfig) (token : string)
    (liveNames : list string) (fetcher : Fetcher) (w w' : World)
    (result : ServerResult) :
  refreshServer server token liveNames fetcher w = (Ok result, w') ->
  result_alias result = alias server
  /\ (result_error result = None <-> result_rooms result <> [])
  /\ (forall error, result_error result = Some error ->
        error <> EmptyString /\ result_success result = false)
  /\ Forall (fun outcome =>
               message outcome
               = if success outcome then EmptyString else code outcome)
            (result_rooms result).
Proof.
  intros Hrun.
  destruct (refreshServer_cases server token liveNames fetcher w)
    as [(err & w1 & _ & Hrun')
       | [(liveList & w1 & _ & _ & Hrun')
         | (liveList & w1 & outcomes & w2 & _ & Hsome & Hall & Hrun')]];
    rewrite Hrun' in Hrun; injection Hrun as <- <-;
    cbn [result_alias result_rooms result_error result_success].
  - split; [reflexivity|]. split; [split; [discriminate | congruence]|].
    split; [intros error [= <-]; split; [discriminate | reflexivity] | constructor].
  - split; [reflexivity|]. split; [split; [discriminate | congruence]|].
    split; [intros error [= <-]; split; [discriminate | reflexivity] | constructor].
  - split; [reflexivity|]. split.
    { split; [intros _ | reflexivity]. eapply GroupOutcomes_nonempty; eauto. }
    split; [discriminate|].
    apply GroupOutcomes_shape in Hall. clear -Hall.
    induction Hall as [|group outcome groups outcomes [_ Hmessage] Hrest IH];
      constructor; auto.
Qed.

Lemma refreshServer_result_invariants_witness :
  result_alias (mkResult "east" [] false (Some noMatchError)) = "east"
  /\ (result_error (mkResult "east" [] false (Some noMatchError)) = None
      <-> result_rooms (mkResult "east" [] false (Some noMatchError)) <> [])
  /\ (forall error,
        result_error (mkResult "east" [] false (Some noMatchError)) = Some error ->
        error <> EmptyString
        /\ result_success (mkResult "east" [] false (Some noMatchError)) = false)
  /\ Forall (fun outcome =>
               message outcome
               = if success outcome then EmptyString else code outcome)
            (result_rooms (mkResult "east" [] false (Some noMatchError))).
Proof.
  apply (refreshServer_result_invariants eastServer "tok" ["Gamma"]
           (serving [roomAlpha; roomBeta] (Ok (jsonResponse singleSuccess)))
           emptyWorld (logged emptyWorld (liveListRequest eastServer "tok"))).
  reflexivity.
Defined.

Lemma groupRequests_own (server : ServerConfig) (token : string)
    (group : MatchedGroup) :
  (length (groupRequests server token group) <= 1)%nat
  /\ Forall (fun req =>
               req_method req = "POST"
               /\ req_headers req = buildHeaders token
               /\ exists path,
                    req_url req = "https://" +:+ url server +:+ "/api/live/" +:+ path)
            (groupRequests server token group).
Proof.
  unfold groupRequests.
  destruct (groupLiveIds group) as [|liveId [|other liveIds]]; simpl.
  - split; [lia | constructor].
  - split; [lia|]. constructor; [|constructor].
    repeat split. now exists "refreshVerifyCode".
  - split; [lia|]. constructor; [|constructor].
    repeat split. now exists "batchRefVerifyCode".
Qed.

Lemma flat_map_groupRequests_own (server : ServerConfig) (token : string)
    (groups : list MatchedGroup) :
  (length (flat_map (groupRequests server token) groups) <= length groups)%nat
  /\ Forall (fun req =>
               req_method req = "POST"
               /\ req_headers req = buildHeaders token
               /\ exists path,
                    req_url req = "https://" +:+ url server +:+ "/api/live/" +:+ path)
            (flat_map (groupRequests server token) groups).
Proof.
  induction groups as [|group rest [IHlen IHall]]; simpl.
  - split; [lia | constructor].
  - destruct (groupRequests_own server token group) as [Hlen Hall].
    rewrite length_app. split; [lia|]. apply Forall_app. auto.
Qed.

(** The requests [refreshServer] adds to the log. *)
Lemma refreshServer_added (server : ServerConfig) (token : string)
    (liveNames : list string) (fetcher : Fetcher) (w : World) :
  exists added : list Request,
    requests (snd (refreshServer server token liveNames fetcher w))
    = requests w ++ liveListRequest server token :: added
    /\ (length added <= length (List.filter Str.nonempty liveNames))%nat
    /\ Forall (fun req =>
                 req_method req = "POST"
                 /\ req_headers req = buildHeaders token
                 /\ exists path,
                      req_url req
                      = "https://" +:+ url server +:+ "/api/live/" +:+ path)
              (liveListRequest server token :: added)
    /\ console (snd (refreshServer server token liveNames fetcher w)) = console w.
Proof.
  assert (Hlist : req_method (liveListRequest server token) = "POST"
                  /\ req_headers (liveListRequest server token) = buildHeaders token
                  /\ exists path,
                       req_url (liveListRequest server token)
                       = "https://" +:+ url server +:+ "/api/live/" +:+ path).
  { repeat split. now exists "liveList". }
  pose proof (fetchLiveList_world server token fetcher w) as Hw1.
  destruct (refreshServer_cases server token liveNames fetcher w)
    as [(err & w1 & Hfetch & Hrun)
       | [(liveList & w1 & Hfetch & _ & Hrun)
         | (liveList & w1 & outcomes & w2 & Hfetch & _ & Hall & Hrun)]];
    rewrite Hrun; rewrite Hfetch in Hw1; cbn [snd] in *; subst w1.
  - exists []. cbn [logged requests console length]. repeat split; auto; lia.
  - exists []. cbn [logged requests console length]. repeat split; auto; lia.
  - apply GroupOutcomes_world in Hall as (Hreq & Hcon & _).
    destruct (flat_map_groupRequests_own server token
                (filterLiveRooms liveList liveNames)) as [Hlen Hown].
    exists (flat_map (groupRequests server token) (filterLiveRooms liveList liveNames)).
    rewrite Hreq, Hcon. cbn [logged requests console].
    rewrite <- app_assoc. split; [reflexivity|]. split; [|split; auto].
    pose proof (matchGroups_groups liveList (parseLiveNameGroups liveNames))
      as [Hgroups _].
    unfold parseLiveNameGroups in Hgroups at 2. rewrite length_map in Hgroups.
    unfold filterLiveRooms in *. lia.
Qed.


(** ** Notifications *)

Lemma refreshServer_shown (server : ServerConfig) (token : string)
    (liveNames : list string) (fetcher : Fetcher) (w w' : World)
    (result : ServerResult) :
  refreshServer server token liveNames fetcher w = (Ok result, w') ->
  match result_error result with
  | Some error => Str.nonempty error = true
  | None => (length (result_rooms result) =? 0)%nat = false
  end.
Proof.
  intros Hrun.
  destruct (refreshServer_cases server token liveNames fetcher w)
    as [(err & w1 & _ & Hrun')
       | [(liveList & w1 & _ & _ & Hrun')
         | (liveList & w1 & outcomes & w2 & _ & Hsome & Hall & Hrun')]];
    rewrite Hrun' in Hrun; injection Hrun as <- <-;
    cbn [result_rooms result_error]; try reflexivity.
  apply (GroupOutcomes_nonempty _ _ _ _ _ _ _ Hall) in Hsome.
  destruct outcomes; [congruence | reflexivity].
Qed.

(** X13. The message built for a result of [refreshServer] is, when the
    result has an error, the two lines that name the server and the reason,
    and otherwise a header line followed by exactly one line per outcome, in
    order; the header says success exactly when [success] is true. The line
    "未匹配到需要刷码的直播间" never appears in it. *)
Theorem buildMessage_of_result (server : ServerConfig) (token : string)
    (liveNames : list string) (fetcher : Fetcher) (w w' : World)
    (result : ServerResult) :
  refreshServer server token liveNames fetcher w = (Ok result, w') ->
  let shown :=
    if Str.nonempty (alias server) then alias server else "unknown" in
  buildMessage result
  = match result_error result with
    | Some error =>
        "【" +:+ shown +:+ "】刷码失败" +:+ newline +:+ "原因：" +:+ error
    | None =>
        Str.join newline
          (("【" +:+ shown +:+ "】"
            +:+ (if result_success result then "刷码成功" else "刷码完成（部分失败）"))
             :: map outcomeLine (result_rooms result))
    end.
Proof.
  intros Hrun shown.
  pose proof (refreshServer_shown _ _ _ _ _ _ _ Hrun) as Hshown.
  destruct (refreshServer_returns server token liveNames fetcher w)
    as (result' & w2 & Hrun' & Halias).
  assert (result' = result) by congruence. subst result'.
  unfold buildMessage. rewrite Halias. fold shown.
  destruct (result_error result) as [error|]; cbn [default]; unfold id.
  - now rewrite Hshown.
  - cbn [Str.nonempty Str.is_empty negb]. now rewrite Hshown.
Qed.

Lemma buildMessage_of_result_witness :
  buildMessage (mkResult "east" [mkOutcome "B1|B2" "3200" true EmptyString] true None)
  = Str.join newline ["【east】刷码成功"; "B1|B2:3200"].
Proof.
  apply (buildMessage_of_result eastServer "tok" ["B1|B2"]
           (serving [roomB1; roomB2] (Ok (jsonResponse singleSuccess))) emptyWorld
           (mkWorld [liveListRequest eastServer "tok";
                     refreshRoomRequest eastServer "tok" (JNum 3)] [])).
  reflexivity.
Defined.

Lemma not_zero_false (v : JsVal) : Js.not_zero v = false <-> v = JNum 0.
Proof.
  destruct v; simpl; split; try discriminate; try congruence.
  - intros H. apply negb_false_iff, Z.eqb_eq in H. now subst.
  - intros [= ->]. reflexivity.
Qed.

(** X14. [sendNotification] returns normally exactly when the webhook answers
    2xx with a JSON body whose [errcode] is the number 0; a body that is not
    JSON, a missing [errcode] or one that is not the number 0 (the text "0"
    too) makes it throw, with [errmsg] as message when that is truthy and
    "企业微信返回错误" otherwise. Either way the notification request is made. *)
Theorem sendNotification_accepted (webhookKey : string)
    (serverResult : ServerResult) (fetcher : Fetcher) (w : World) :
  (forall w',
      sendNotification webhookKey serverResult fetcher w = (Ok tt, w')
      <-> w' = logged w (notificationRequest webhookKey serverResult)
          /\ Accepted (fetcher (requests w)
                               (notificationRequest webhookKey serverResult)))
  /\ (forall res,
        fetcher (requests w) (notificationRequest webhookKey serverResult) = Ok res ->
        res_ok res = true ->
        Js.get (safeJson res) "errcode" <> JNum 0 ->
        sendNotification webhookKey serverResult fetcher w
        = (Throw (Error (Js.to_string
                           (Js.or (Js.get (safeJson res) "errmsg")
                                  (JStr "企业微信返回错误")))),
           logged w (notificationRequest webhookKey serverResult)))
  /\ snd (sendNotification webhookKey serverResult fetcher w)
     = logged w (notificationRequest webhookKey serverResult).
Proof.
  split; [|split; [|apply sendNotification_world]].
  - intros w'. unfold sendNotification, Accepted, bind, call, throw, ret.
    destruct (fetcher _ _) as [res|err].
    2:{ split; [discriminate | intros (_ & res & payload & [=] & _)]. }
    destruct (res_ok res) eqn:Hok; cbn [negb].
    2:{ split; [discriminate | intros (_ & res' & payload & [= <-] & ? & _)].
        congruence. }
    destruct (Js.not_zero (Js.get (safeJson res) "errcode")) eqn:Hcode.
    + split; [discriminate|].
      intros (_ & res' & payload & [= <-] & _ & Hjson & Hzero).
      unfold safeJson in Hcode. rewrite Hjson, Hzero in Hcode. discriminate.
    + apply not_zero_false in Hcode. split.
      * intros [= <-]. split; [reflexivity|].
        unfold safeJson in Hcode.
        destruct (res_json res) as [payload|err] eqn:Hjson; [|discriminate].
        exists res, payload. auto.
      * intros (-> & _). reflexivity.
  - intros res Hfetch Hok Hcode.
    unfold sendNotification, bind, call, throw, ret. rewrite Hfetch, Hok.
    cbn [negb]. destruct (Js.not_zero _) eqn:Hzero; [reflexivity|].
    apply not_zero_false in Hzero. congruence.
Qed.

(** The webhook answers 200 with [errcode] the text "0". *)
Lemma sendNotification_accepted_witness :
  sendNotification "key" (mkResult "east" [] false (Some noMatchError))
    (always (Ok (jsonResponse (JObj [("errcode", JStr "0"); ("errmsg", JStr "ok")]))))
    emptyWorld
  = (Throw (Error "ok"),
     logged emptyWorld
            (notificationRequest "key" (mkResult "east" [] false (Some noMatchError)))).
Proof.
  destruct (sendNotification_accepted "key"
              (mkResult "east" [] false (Some noMatchError))
              (always (Ok (jsonResponse
                             (JObj [("errcode", JStr "0"); ("errmsg", JStr "ok")]))))
              emptyWorld) as (_ & Hthrow & _).
  apply (Hthrow (jsonResponse (JObj [("errcode", JStr "0"); ("errmsg", JStr "ok")])));
    [reflexivity | reflexivity | discriminate].
Defined.

(** ** The whole run, once more *)

Lemma refreshEach_world (servers : list ServerConfig) (token : string)
    (liveNames : list string) (fetcher : Fetcher)
    (pushed : list ServerResult) (w : World) :
  exists results w' added,
    refreshEach servers token liveNames fetcher pushed w
    = (Ok (pushed ++ results), w')
    /\ map result_alias results = map alias servers
    /\ requests w' = requests w ++ added
    /\ (length servers <= length added
        <= length servers * S (length (List.filter Str.nonempty liveNames)))%nat
    /\ Forall (ServerRequest servers token) added
    /\ console w' = console w.
Proof.
  revert pushed w; induction servers as [|server rest IH]; intros pushed w.
  - exists [], w, []. simpl. rewrite !app_nil_r. repeat split; auto.
  - cbn [refreshEach]. unfold bind.
    destruct (refreshServer_returns server token liveNames fetcher w)
      as (result & w1 & Hrun & Halias).
    destruct (refreshServer_added server token liveNames fetcher w)
      as (added1 & Hreq1 & Hlen1 & Hown1 & Hcon1).
    rewrite Hrun in Hreq1, Hcon1 |- *. cbn [snd] in Hreq1, Hcon1.
    destruct (IH (pushed ++ [result]) w1)
      as (results & w' & added & Hrest & Haliases & Hreq & Hlen & Hown & Hcon).
    exists (result :: results), w', (liveListRequest server token :: added1 ++ added).
    rewrite Hrest, <- app_assoc. split; [reflexivity|].
    split; [simpl; now rewrite Halias, Haliases|].
    split; [rewrite Hreq, Hreq1, <- app_assoc; reflexivity|].
    split; [simpl; rewrite length_app; lia|].
    split; [|congruence].
    change (liveListRequest server token :: added1 ++ added)
      with ((liveListRequest server token :: added1) ++ added).
    apply Forall_app. split.
    + eapply List.Forall_impl; [|exact Hown1].
      intros req (Hm & Hh & path & Hurl). repeat split; auto.
      exists server, path. split; [now left | exact Hurl].
    + eapply List.Forall_impl; [|exact Hown].
      intros req (Hm & Hh & server' & path & Hin & Hurl). repeat split; auto.
      exists server', path. split; [now right | exact Hurl].
Qed.


(** With a configuration that loads, [run] returns. *)
Lemma run_returns (penv : option Env) (env overrides : Env) (fetcher : Fetcher)
    (w : World) (config : Config) :
  loadConfig penv env overrides = Ok config ->
  exists results w1 w',
    refreshAll (servers config) (token config) (liveNames config) fetcher w
    = (Ok results, w1)
    /\ console w1 = console w
    /\ Notified (webhookKey config) fetcher w1 results w'
    /\ run penv env overrides fetcher w = (Ok results, w').
Proof.
  intros Hconfig. unfold run, refreshAll, bind, settle. rewrite Hconfig.
  destruct (refreshEach_world (servers config) (token config) (liveNames config)
              fetcher [] w) as (results & w1 & added & Hall & _ & _ & _ & _ & Hcon).
  simpl in Hall. rewrite Hall.
  destruct (notifyEach_Notified (webhookKey config) fetcher results w1)
    as (w' & Hnotify & Hsteps).
  rewrite Hnotify. exists results, w1, w'. auto.
Qed.



Lemma Notified_console (webhookKey : string) (fetcher : Fetcher)
    (results : list ServerResult) (w w' : World) :
  Notified webhookKey fetcher w results w' ->
  exists failures,
    console w' = console w ++ failures
    /\ (length failures <= length results)%nat
    /\ Forall (fun entry =>
                 exists result,
                   In result results
                   /\ fst entry = "[" +:+ result_alias result +:+ "] 通知发送失败:")
              failures
    /\ ((forall history result,
            Accepted (fetcher history (notificationRequest webhookKey result))) ->
        failures = []).
Proof.
  induction 1 as [w | w result w1 results w2 Hsend Hrest IH
                  | w result err w1 results w2 Hsend Hrest IH].
  - exists []. rewrite app_nil_r. repeat split; auto.
  - pose proof (sendNotification_world webhookKey result fetcher w) as Hw1.
    rewrite Hsend in Hw1. cbn [snd] in Hw1. subst w1.
    destruct IH as (failures & Hcon & Hlen & Hall & Hnone).
    exists failures. cbn [logged console] in Hcon.
    split; [exact Hcon|]. split; [simpl; lia|]. split; [|exact Hnone].
    eapply List.Forall_impl; [|exact Hall].
    intros entry (r & Hin & Hlabel). exists r. split; [now right | exact Hlabel].
  - pose proof (sendNotification_world webhookKey result fetcher w) as Hw1.
    rewrite Hsend in Hw1. cbn [snd] in Hw1. subst w1.
    destruct IH as (failures & Hcon & Hlen & Hall & Hnone).
    cbn [logged console requests] in Hcon.
    exists (("[" +:+ result_alias result +:+ "] 通知发送失败:", err) :: failures).
    split; [rewrite Hcon, <- app_assoc; reflexivity|].
    split; [simpl; lia|]. split.
    + constructor; [exists result; split; [now left | reflexivity]|].
      eapply List.Forall_impl; [|exact Hall].
      intros entry (r & Hin & Hlabel). exists r. split; [now right | exact Hlabel].
    + intros Haccepted.
      destruct (Haccepted (requests w) result)
        as (res & payload & Hfetch & Hok & Hjson & Hzero).
      unfold sendNotification, bind, call, throw, ret in Hsend.
      rewrite Hfetch, Hok in Hsend. cbn [negb] in Hsend.
      unfold safeJson in Hsend. rewrite Hjson, Hzero in Hsend. discriminate.
Qed.

(** What becomes of one notification: accepted and sent, or rejected with
    the exception thrown. *)
Lemma sendNotification_fate (webhookKey : string) (serverResult : ServerResult)
    (fetcher : Fetcher) (w : World) :
  (sendNotification webhookKey serverResult fetcher w
   = (Ok tt, logged w (notificationRequest webhookKey serverResult))
   /\ Accepted (fetcher (requests w) (notificationRequest webhookKey serverResult)))
  \/ (exists err,
        sendNotification webhookKey serverResult fetcher w
        = (Throw err, logged w (notificationRequest webhookKey serverResult))
        /\ Rejected (fetcher (requests w)
                             (notificationRequest webhookKey serverResult)) err).
Proof.
  unfold sendNotification, Accepted, bind, call, throw, ret.
  destruct (fetcher (requests w) (notificationRequest webhookKey serverResult))
    as [res|err] eqn:Hfetch.
  2:{ right. exists err. split; [reflexivity | constructor]. }
  destruct (res_ok res) eqn:Hok; cbn [negb].
  2:{ right. eexists. split; [reflexivity | now constructor]. }
  destruct (Js.not_zero (Js.get (safeJson res) "errcode")) eqn:Hcode.
  - right. eexists. split; [reflexivity|]. constructor; [exact Hok|].
    intros Hzero. rewrite Hzero in Hcode. discriminate.
  - left. split; [reflexivity|]. apply not_zero_false in Hcode.
    unfold safeJson in Hcode.
    destruct (res_json res) as [payload|err] eqn:Hjson; [|discriminate].
    exists res, payload. auto.
Qed.

(** A notification is not both accepted and rejected. *)
Lemma Accepted_not_Rejected (answer : Result Response) (err : Exn) :
  Accepted answer -> Rejected answer err -> False.
Proof.
  intros (res & payload & -> & Hok & Hjson & Hzero) Hrej.
  inversion Hrej as [| ? Hno | ? _ Hcode]; subst; [congruence|].
  apply Hcode. unfold safeJson. now rewrite Hjson.
Qed.

Lemma Notified_failures (webhookKey : string) (fetcher : Fetcher)
    (results : list ServerResult) (w w' : World) :
  Notified webhookKey fetcher w results w' ->
  exists failures,
    console w' = console w ++ failures
    /\ NotificationFailures webhookKey fetcher (requests w) results failures.
Proof.
  induction 1 as [w | w result w1 results w2 Hsend Hrest IH
                  | w result err w1 results w2 Hsend Hrest IH].
  - exists []. rewrite app_nil_r. split; [reflexivity | constructor].
  - destruct IH as (failures & Hcon & Hall).
    destruct (sendNotification_fate webhookKey result fetcher w)
      as [[Hok Hacc] | (err & Hthrow & _)]; [|congruence].
    rewrite Hok in Hsend. injection Hsend as <-.
    exists failures. split; [exact Hcon|].
    apply NotificationFailures_accepted; assumption.
  - destruct IH as (failures & Hcon & Hall).
    destruct (sendNotification_fate webhookKey result fetcher w)
      as [[Hok _] | (err' & Hthrow & Hrej)]; [congruence|].
    rewrite Hthrow in Hsend. injection Hsend as <- <-.
    cbn [logged requests console] in Hcon, Hall.
    exists (("[" +:+ result_alias result +:+ "] 通知发送失败:", err') :: failures).
    split; [rewrite Hcon, <- app_assoc; reflexivity|].
    apply NotificationFailures_rejected; assumption.
Qed.

Lemma NotificationFailures_all_rejected (webhookKey : string) (fetcher : Fetcher)
    (history : list Request) (results : list ServerResult)
    (failures : list (string * Exn)) :
  NotificationFailures webhookKey fetcher history results failures ->
  (forall h result, ~ Accepted (fetcher h (notificationRequest webhookKey result))) ->
  map fst failures
  = map (fun result => "[" +:+ result_alias result +:+ "] 通知发送失败:") results.
Proof.
  intros Hall Hnone.
  induction Hall as [h | h result results failures Hacc Hrest IH
                     | h result err results failures Hrej Hrest IH].
  - reflexivity.
  - destruct (Hnone h result Hacc).
  - simpl. now rewrite IH.
Qed.

(** X17. With a configuration that loads, what [run] writes to the console
    is exactly one entry for every notification that the webhook rejects in
    its turn, in the order of the results, labelled with the alias of the
    result and holding the exception thrown ([NotificationFailures]); a
    notification that is accepted leaves no entry, and the refreshes write
    nothing. So there is at most one entry per result, none when every
    notification is accepted, and one for each result when none is. *)
Theorem run_console (penv : option Env) (env overrides : Env)
    (fetcher : Fetcher) (w : World) (config : Config) :
  loadConfig penv env overrides = Ok config ->
  exists (results : list ServerResult) (w1 w' : World)
         (failures : list (string * Exn)),
    refreshAll (servers config) (token config) (liveNames config) fetcher w
    = (Ok results, w1)
    /\ run penv env overrides fetcher w = (Ok results, w')
    /\ console w' = console w ++ failures
    /\ NotificationFailures (webhookKey config) fetcher (requests w1) results
                            failures
    /\ (length failures <= length results)%nat
    /\ Forall (fun entry =>
                 exists result,
                   In result results
                   /\ fst entry = "[" +:+ result_alias result +:+ "] 通知发送失败:")
              failures
    /\ ((forall history result,
            Accepted (fetcher history
                        (notificationRequest (webhookKey config) result))) ->
        failures = [])
    /\ ((forall history result,
            ~ Accepted (fetcher history
                          (notificationRequest (webhookKey config) result))) ->
        map fst failures
        = map (fun result => "[" +:+ result_alias result +:+ "] 通知发送失败:")
              results).
Proof.
  intros Hconfig.
  destruct (run_returns penv env overrides fetcher w config Hconfig)
    as (results & w1 & w' & Hall & Hcon1 & Hsteps & Hrun).
  destruct (Notified_console _ _ _ _ _ Hsteps)
    as (failures & Hcon & Hlen & Hlabels & Hnone).
  destruct (Notified_failures _ _ _ _ _ Hsteps) as (failures' & Hcon' & Hfail).
  assert (failures' = failures).
  { rewrite Hcon in Hcon'. now apply app_inv_head in Hcon'. }
  subst failures'.
  exists results, w1, w', failures. rewrite <- Hcon1.
  repeat (split; [assumption|]).
  intros Hevery.
  exact (NotificationFailures_all_rejected _ _ _ _ _ Hfail Hevery).
Qed.

(** The network is down: both notifications fail, and both are reported. *)
Lemma run_console_witness :
  exists (results : list ServerResult) (w' : World),
    run None sampleEnv ∅ networkDown emptyWorld = (Ok results, w')
    /\ map fst (console w') = ["[east] 通知发送失败:"; "[west] 通知发送失败:"].
Proof.
  destruct (run_console None sampleEnv ∅ networkDown emptyWorld sampleConfig)
    as (results & w1 & w' & failures & Hall & Hrun & Hcon & _ & _ & _ & _ & Hevery).
  - vm_compute. reflexivity.
  - exists results, w'. split; [exact Hrun|].
    rewrite Hcon. cbn [emptyWorld console app]. rewrite Hevery.
    + vm_compute in Hall. now injection Hall as <- _.
    + intros history result (res & payload & Hres & _). discriminate Hres.
Defined.

(** ** The request handler *)



(** ** The first revision: one room per server *)

Lemma legacy_getEnv_nonempty (penv : option Env) (env : Env) (key v : string) :
  Legacy.getEnv penv env key = Some v -> v <> EmptyString.
Proof.
  unfold Legacy.getEnv. destruct (env_get env key) eqn:E1.
  - intros [= <-]. now apply env_get_nonempty in E1.
  - destruct penv as [p|]; [|discriminate].
    intros E2. now apply env_get_nonempty in E2.
Qed.

Lemma legacy_loadEach_push (penv : option Env) (env : Env)
    (aliases : list string) (pushed : list Legacy.Server) :
  Legacy.loadEach penv env aliases pushed
  = pushed ++ Legacy.loadEach penv env aliases [].
Proof.
  revert pushed; induction aliases as [|A rest IH]; intros pushed; simpl.
  - now rewrite app_nil_r.
  - destruct (Legacy.getEnv penv env (A +:+ "_URL")) as [u|]; auto.
    destruct (Legacy.getEnv penv env (A +:+ "_TOKEN")) as [t|]; auto.
    destruct (Legacy.getEnv penv env (A +:+ "_ROOM_ID")) as [r|]; auto.
    rewrite (IH (pushed ++ _)), (IH [_]). now rewrite <- app_assoc.
Qed.

Lemma legacy_loadEach_servers (penv : option Env) (env : Env)
    (aliases : list string) :
  sublist (map Legacy.alias (Legacy.loadEach penv env aliases []))
          (map Legacy.toLowerCase aliases)
  /\ forall server,
       In server (Legacy.loadEach penv env aliases [])
       <-> exists A,
             In A aliases
             /\ Legacy.alias server = Legacy.toLowerCase A
             /\ Legacy.getEnv penv env (A +:+ "_URL") = Some (Legacy.url server)
             /\ Legacy.getEnv penv env (A +:+ "_TOKEN") = Some (Legacy.token server)
             /\ Legacy.getEnv penv env (A +:+ "_ROOM_ID")
                = Some (Legacy.roomId server).
Proof.
  induction aliases as [|A rest [IHsub IHin]]; cbn [Legacy.loadEach map].
  - split; [constructor|]. intros server. split; [intros [] | intros (A & [] & _)].
  - destruct (Legacy.getEnv penv env (A +:+ "_URL")) as [u|] eqn:Eu;
      [destruct (Legacy.getEnv penv env (A +:+ "_TOKEN")) as [t|] eqn:Et;
       [destruct (Legacy.getEnv penv env (A +:+ "_ROOM_ID")) as [r|] eqn:Er|]|].
    1:{ rewrite legacy_loadEach_push. cbn [app map Legacy.alias]. split.
        - now constructor.
        - intros server. cbn [In]. rewrite IHin. split.
          + intros [<- | (B & HB & Hrest)].
            * exists A. cbn. auto.
            * exists B. auto.
          + intros (B & [<- | HB] & Halias & Hu & Ht & Hr).
            * left. destruct server as [a u' t' r']. cbn in *. congruence.
            * right. exists B. auto. }
    all: split; [now constructor|]; intros server; rewrite IHin; split;
      [intros (B & HB & Hrest); exists B; cbn [In]; auto
      |intros (B & [<- | HB] & Halias & Hu & Ht & Hr);
       [congruence | exists B; auto]].
Qed.

(** X19. [loadServers] of the first revision keeps, in the order EAST, WEST,
    HEBEI, exactly the servers whose url, token and room id are all set (and
    not empty), each under its alias in lower case with the values of its
    three settings; it throws when there is no such server, and returns them
    otherwise. *)
Theorem legacy_loadServers (penv : option Env) (env : Env) :
  let servers := Legacy.loadEach penv env Legacy.aliases [] in
  sublist (map Legacy.alias servers) ["east"; "west"; "hebei"]
  /\ (forall server,
        In server servers
        <-> exists A,
              In A ["EAST"; "WEST"; "HEBEI"]
              /\ Legacy.alias server = Legacy.toLowerCase A
              /\ Legacy.getEnv penv env (A +:+ "_URL") = Some (Legacy.url server)
              /\ Legacy.getEnv penv env (A +:+ "_TOKEN") = Some (Legacy.token server)
              /\ Legacy.getEnv penv env (A +:+ "_ROOM_ID")
                 = Some (Legacy.roomId server))
  /\ Forall (fun server =>
               Legacy.url server <> EmptyString
               /\ Legacy.token server <> EmptyString
               /\ Legacy.roomId server <> EmptyString) servers
  /\ (servers = [] ->
      Legacy.loadServers penv env
      = Throw (Error "No servers configured via environment variables"))
  /\ (servers <> [] -> Legacy.loadServers penv env = Ok servers).
Proof.
  intros servers.
  destruct (legacy_loadEach_servers penv env Legacy.aliases) as [Hsub Hin].
  fold servers in Hsub, Hin.
  split; [exact Hsub|]. split; [exact Hin|]. split; [|split].
  - apply List.Forall_forall. intros server Hserver.
    apply Hin in Hserver as (A & _ & _ & Hu & Ht & Hr).
    repeat split; eapply legacy_getEnv_nonempty; eauto.
  - unfold Legacy.loadServers. fold servers. now intros ->.
  - unfold Legacy.loadServers. fold servers. destruct servers; [congruence|auto].
Qed.

Lemma legacy_loadServers_witness :
  Legacy.loadServers None legacyEnv = Ok [westServer].
Proof.
  destruct (legacy_loadServers None legacyEnv) as (_ & _ & _ & _ & Hsome).
  apply Hsome. vm_compute. discriminate.
Defined.

Lemma legacy_refreshServer_returns (fetch : Fetcher) (server : Legacy.Server)
    (w : World) :
  exists outcome : Legacy.Outcome,
    Legacy.refreshServer fetch server w
    = (Ok outcome, logged w (Legacy.refreshRequest server))
    /\ Legacy.outcome_alias outcome = Legacy.alias server.
Proof.
  unfold Legacy.refreshServer, try_catch, bind, call, settle, ret.
  destruct (fetch (requests w) (Legacy.refreshRequest server)) as [res|err];
    [|eauto].
  destruct (res_ok res); cbn [negb]; [|eauto].
  destruct (res_json res); eauto.
Qed.

(** X20. [refreshServer] of the first revision never throws and always makes
    its one request; every failure becomes an outcome with [success] false:
    the message of the exception when the fetcher throws or the body is not
    JSON, [safeError] of the response when it is not 2xx. On a 2xx JSON
    payload [success] is the truthiness of [meta.success], and the code is
    chosen by it: [data.code] (or "N/A") when successful, [meta.message] (or
    "刷新失败") when not. *)
Theorem legacy_refreshServer (fetch : Fetcher) (server : Legacy.Server) (w : World) :
  exists outcome : Legacy.Outcome,
    Legacy.refreshServer fetch server w
    = (Ok outcome, logged w (Legacy.refreshRequest server))
    /\ Legacy.outcome_alias outcome = Legacy.alias server
    /\ (forall err,
          fetch (requests w) (Legacy.refreshRequest server) = Throw err ->
          outcome = Legacy.mkOutcome (Legacy.alias server) (JStr (exn_message err)) false)
    /\ (forall res,
          fetch (requests w) (Legacy.refreshRequest server) = Ok res ->
          (res_ok res = false ->
           outcome = Legacy.mkOutcome (Legacy.alias server) (JStr (safeError res)) false)
          /\ (forall err, res_ok res = true -> res_json res = Throw err ->
              outcome = Legacy.mkOutcome (Legacy.alias server)
                                         (JStr (exn_message err)) false)
          /\ (forall payload, res_ok res = true -> res_json res = Ok payload ->
              Legacy.success outcome
              = Js.truthy (Js.get (Js.get payload "meta") "success")
              /\ Legacy.code outcome
                 = if Legacy.success outcome
                   then Js.coalesce (Js.get (Js.get payload "data") "code")
                                    (JStr "N/A")
                   else Js.coalesce (Js.get (Js.get payload "meta") "message")
                                    (JStr "刷新失败"))).
Proof.
  unfold Legacy.refreshServer, try_catch, bind, call, settle, ret.
  destruct (fetch (requests w) (Legacy.refreshRequest server)) as [res|err] eqn:Hf.
  - destruct (res_ok res) eqn:Hok; cbn [negb].
    + destruct (res_json res) as [payload|err] eqn:Hjson.
      * eexists. split; [reflexivity|]. split; [reflexivity|].
        split; [discriminate|]. intros res' [= <-].
        split; [congruence|]. split; [congruence|].
        intros payload' _ Hp. rewrite Hjson in Hp. injection Hp as <-.
        split; reflexivity.
      * eexists. split; [reflexivity|]. split; [reflexivity|].
        split; [discriminate|]. intros res' [= <-].
        split; [congruence|]. split; [|congruence].
        intros err' _ He. rewrite Hjson in He. injection He as <-. reflexivity.
    + eexists. split; [reflexivity|]. split; [reflexivity|].
      split; [discriminate|]. intros res' [= <-].
      split; [reflexivity|]. split; congruence.
  - eexists. split; [reflexivity|]. split; [reflexivity|].
    split; [intros err' [= <-]; reflexivity | discriminate].
Qed.

(** A failed refresh that still carries a code: here the message is shown. *)
Lemma legacy_refreshServer_witness :
  exists outcome : Legacy.Outcome,
    Legacy.refreshServer (always (Ok (jsonResponse failedWithCode))) westServer
                         emptyWorld
    = (Ok outcome, logged emptyWorld (Legacy.refreshRequest westServer))
    /\ Legacy.success outcome = false
    /\ Legacy.code outcome = JStr "room closed".
Proof.
  destruct (legacy_refreshServer (always (Ok (jsonResponse failedWithCode)))
              westServer emptyWorld) as (outcome & Hrun & _ & _ & Hres).
  destruct (Hres (jsonResponse failedWithCode) eq_refl) as (_ & _ & Hpayload).
  destruct (Hpayload failedWithCode eq_refl eq_refl) as [Hsuccess Hcode].
  exists outcome. split; [exact Hrun|]. split; [exact Hsuccess|].
  rewrite Hcode, Hsuccess. reflexivity.
Defined.

Lemma legacy_refreshEach (fetch : Fetcher) (servers : list Legacy.Server)
    (pushed : list Legacy.Outcome) (w : World) :
  exists results,
    Legacy.refreshEach fetch servers pushed w
    = (Ok (pushed ++ results),
       mkWorld (requests w ++ map Legacy.refreshRequest servers) (console w))
    /\ map Legacy.outcome_alias results = map Legacy.alias servers.
Proof.
  revert pushed w; induction servers as [|server rest IH]; intros pushed w.
  - exists []. simpl. rewrite !app_nil_r. destruct w; auto.
  - cbn [Legacy.refreshEach]. unfold bind.
    destruct (legacy_refreshServer_returns fetch server w)
      as (outcome & Hrun & Halias).
    rewrite Hrun.
    destruct (IH (pushed ++ [outcome]) (logged w (Legacy.refreshRequest server)))
      as (results & Hrest & Haliases).
    exists (outcome :: results). rewrite Hrest. cbn [logged requests console map].
    rewrite <- !app_assoc. split; [reflexivity|].
    simpl. now rewrite Halias, Haliases.
Qed.

Lemma legacy_refreshAll (penv : option Env) (fetch : Fetcher) (env : Env)
    (w : World) (servers : list Legacy.Server) :
  Legacy.loadServers penv env = Ok servers ->
  exists results,
    Legacy.refreshAll penv fetch env w
    = (Ok results,
       mkWorld (requests w ++ map Legacy.refreshRequest servers) (console w))
    /\ map Legacy.outcome_alias results = map Legacy.alias servers.
Proof.
  intros Hload. unfold Legacy.refreshAll, bind, settle. rewrite Hload.
  destruct (legacy_refreshEach fetch servers [] w) as (results & Hrun & Haliases).
  exists results. split; [exact Hrun | exact Haliases].
Qed.

Lemma legacy_sendNotification (penv : option Env) (fetch : Fetcher) (env : Env)
    (results : list Legacy.Outcome) (w : World) (key : string) :
  Legacy.getEnv penv env "WECHAT_WEBHOOK_KEY" = Some key ->
  exists outcome : Result unit,
    Legacy.sendNotification penv fetch env results w
    = (outcome,
       logged w (Legacy.notificationRequest
                   ("https://qyapi.weixin.qq.com/cgi-bin/webhook/send?key=" +:+ key)
                   results))
    /\ (outcome = Ok tt
        <-> Accepted (fetch (requests w)
                        (Legacy.notificationRequest
                           ("https://qyapi.weixin.qq.com/cgi-bin/webhook/send?key="
                            +:+ key) results))).
Proof.
  intros Hkey.
  unfold Legacy.sendNotification, Legacy.buildWebhookUrl, bind, settle, call,
    throw, ret, Accepted.
  rewrite Hkey.
  destruct (fetch _ _) as [res|err] eqn:Hfetch.
  2:{ eexists. split; [reflexivity|].
      split; [discriminate | intros (res & payload & [=] & _)]. }
  destruct (res_ok res) eqn:Hok; cbn [negb].
  2:{ eexists. split; [reflexivity|].
      split; [discriminate | intros (res' & payload & [= <-] & ? & _)].
      congruence. }
  destruct (res_json res) as [payload|err] eqn:Hjson.
  2:{ eexists. split; [reflexivity|].
      split; [discriminate | intros (res' & payload & [= <-] & _ & ? & _)].
      congruence. }
  destruct (Js.not_zero (Js.get payload "errcode")) eqn:Hzero.
  - eexists. split; [reflexivity|]. split; [discriminate|].
    intros (res' & payload' & [= <-] & _ & Hp & Hcode).
    rewrite Hjson in Hp. injection Hp as <-. rewrite Hcode in Hzero. discriminate.
  - apply not_zero_false in Hzero.
    eexists. split; [reflexivity|].
    split; [intros _; exists res, payload; auto | reflexivity].
Qed.

(** X21. [run] of the first revision, with servers configured: it refreshes
    every server, one request each in the order of the servers, and only
    then looks for the webhook key. Without a key it throws
    "WECHAT_WEBHOOK_KEY is missing" after the refreshes. With a key it sends
    exactly one notification for all the results, and returns the results
    exactly when the webhook accepts it: a notification that fails makes the
    whole run throw. *)
Theorem legacy_run (penv : option Env) (fetch : Fetcher) (env : Env) (w : World)
    (servers : list Legacy.Server) :
  Legacy.loadServers penv env = Ok servers ->
  exists (results : list Legacy.Outcome) (w1 : World),
    Legacy.refreshAll penv fetch env w = (Ok results, w1)
    /\ map Legacy.outcome_alias results = map Legacy.alias servers
    /\ requests w1 = requests w ++ map Legacy.refreshRequest servers
    /\ (Legacy.getEnv penv env "WECHAT_WEBHOOK_KEY" = None ->
        Legacy.run penv fetch env w
        = (Throw (Error "WECHAT_WEBHOOK_KEY is missing"), w1))
    /\ (forall key,
          Legacy.getEnv penv env "WECHAT_WEBHOOK_KEY" = Some key ->
          exists outcome : Result (list Legacy.Outcome),
            Legacy.run penv fetch env w
            = (outcome,
               logged w1
                 (Legacy.notificationRequest
                    ("https://qyapi.weixin.qq.com/cgi-bin/webhook/send?key=" +:+ key)
                    results))
            /\ (outcome = Ok results
                <-> Accepted
                      (fetch (requests w1)
                         (Legacy.notificationRequest
                            ("https://qyapi.weixin.qq.com/cgi-bin/webhook/send?key="
                             +:+ key) results)))
            /\ (outcome = Ok results \/ exists err, outcome = Throw err)).
Proof.
  intros Hload.
  destruct (legacy_refreshAll penv fetch env w servers Hload)
    as (results & Hall & Haliases).
  eexists results, _. split; [exact Hall|]. split; [exact Haliases|].
  split; [reflexivity|].
  unfold Legacy.run, bind. rewrite Hall. split.
  - intros Hkey.
    unfold Legacy.sendNotification, Legacy.buildWebhookUrl, bind, settle.
    now rewrite Hkey.
  - intros key Hkey.
    destruct (legacy_sendNotification penv fetch env results
                (mkWorld (requests w ++ map Legacy.refreshRequest servers)
                         (console w)) key Hkey)
      as (outcome & Hsend & Hiff).
    rewrite Hsend. destruct outcome as [[]|err].
    + eexists. split; [reflexivity|]. split; [|now left].
      split; [intros _; now apply Hiff | reflexivity].
    + eexists. split; [reflexivity|]. split; [|right; eauto].
      split; [discriminate | intros Hacc]. apply Hiff in Hacc. discriminate.
Qed.

(** WEST is configured and answers, but there is no webhook key. *)
Lemma legacy_run_witness :
  Legacy.run None (always (Ok (jsonResponse singleSuccess))) legacyEnv emptyWorld
  = (Throw (Error "WECHAT_WEBHOOK_KEY is missing"),
     mkWorld [Legacy.refreshRequest westServer] []).
Proof.
  destruct (legacy_run None (always (Ok (jsonResponse singleSuccess))) legacyEnv
              emptyWorld [westServer]) as (results & w1 & Hall & _ & _ & Hmissing & _).
  - vm_compute. reflexivity.
  - rewrite (Hmissing ltac:(vm_compute; reflexivity)).
    f_equal. vm_compute in Hall. now injection Hall as _ <-.
Defined.

(** X22. The [fetch] handler of the first revision never throws. On a path
    other than /refresh it answers 404 without a request. On /refresh it
    answers 500 "No servers configured via environment variables" without a
    request when no server is configured, 500 "WECHAT_WEBHOOK_KEY is missing"
    after the refresh requests when servers are configured but the key is
    not, and in any case a 200 with the results or a 500 with the message of
    what [run] threw. *)
Theorem legacy_fetchHandler (penv : option Env) (fetch : Fetcher)
    (pathname : string) (env : Env) (w : World) :
  (pathname <> "/refresh" ->
   Legacy.fetchHandler penv fetch pathname env w
   = (Ok (Legacy.mkReply 404 [] (Legacy.BodyText "Not Found")), w))
  /\ (pathname = "/refresh" ->
      (Legacy.loadEach penv env Legacy.aliases [] = [] ->
       Legacy.fetchHandler penv fetch pathname env w
       = (Ok (Legacy.mkReply 500 [("content-type", "application/json")]
                (Legacy.BodyError "No servers configured via environment variables")),
          w))
      /\ (forall servers,
            Legacy.loadServers penv env = Ok servers ->
            Legacy.getEnv penv env "WECHAT_WEBHOOK_KEY" = None ->
            Legacy.fetchHandler penv fetch pathname env w
            = (Ok (Legacy.mkReply 500 [("content-type", "application/json")]
                     (Legacy.BodyError "WECHAT_WEBHOOK_KEY is missing")),
               mkWorld (requests w ++ map Legacy.refreshRequest servers) (console w)))
      /\ exists reply w',
           Legacy.fetchHandler penv fetch pathname env w = (Ok reply, w')
           /\ ((exists results,
                  Legacy.run penv fetch env w = (Ok results, w')
                  /\ reply = Legacy.mkReply 200 [("content-type", "application/json")]
                                            (Legacy.BodyResults results))
               \/ (exists err,
                     Legacy.run penv fetch env w = (Throw err, w')
                     /\ reply = Legacy.mkReply 500
                                  [("content-type", "application/json")]
                                  (Legacy.BodyError (exn_message err))))).
Proof.
  unfold Legacy.fetchHandler. split.
  - intros Hpath. apply String.eqb_neq in Hpath. now rewrite Hpath.
  - intros ->. cbn [String.eqb Ascii.eqb Bool.eqb negb].
    unfold Legacy.handleRequest, try_catch, bind, ret. split; [|split].
    + intros Hnone.
      unfold Legacy.run, Legacy.refreshAll, Legacy.loadServers, bind, settle.
      now rewrite Hnone.
    + intros servers Hload Hkey.
      destruct (legacy_refreshAll penv fetch env w servers Hload)
        as (results & Hall & _).
      unfold Legacy.run, bind. rewrite Hall.
      unfold Legacy.sendNotification, Legacy.buildWebhookUrl, bind, settle.
      now rewrite Hkey.
    + destruct (Legacy.run penv fetch env w) as [[results|err] w'].
      * do 2 eexists. split; [reflexivity|]. left. eauto.
      * do 2 eexists. split; [reflexivity|]. right. eauto.
Qed.

(** Nothing is configured. *)
Lemma legacy_fetchHandler_witness :
  Legacy.fetchHandler None networkDown "/refresh" ∅ emptyWorld
  = (Ok (Legacy.mkReply 500 [("content-type", "application/json")]
           (Legacy.BodyError "No servers configured via environment variables")),
     emptyWorld).
Proof.
  destruct (legacy_fetchHandler None networkDown "/refresh" ∅ emptyWorld)
    as (_ & Hrefresh).
  destruct (Hrefresh eq_refl) as (Hnone & _).
  apply Hnone. vm_compute. reflexivity.
Defined.

(** ** The second revision: one notification per result *)

Lemma revision2_sendNotification (penv : option Env) (fetch : Fetcher)
    (env overrides : Env) (result : Legacy.Outcome) (w : World) (key : string) :
  getEnv penv env overrides "WECHAT_WEBHOOK_KEY" = Some key ->
  exists outcome : Result unit,
    Revision2.sendNotification penv fetch env overrides result w
    = (outcome,
       logged w (revision2Notification key result))
    /\ (outcome = Ok tt
        <-> Accepted (fetch (requests w) (revision2Notification key result))).
Proof.
  intros Hkey.
  unfold revision2Notification, Revision2.sendNotification, Revision2.buildWebhookUrl, bind, settle, call,
    throw, ret, Accepted.
  rewrite Hkey.
  destruct (fetch _ _) as [res|err] eqn:Hfetch.
  2:{ eexists. split; [reflexivity|].
      split; [discriminate | intros (res & payload & [=] & _)]. }
  destruct (res_ok res) eqn:Hok; cbn [negb].
  2:{ eexists. split; [reflexivity|].
      split; [discriminate | intros (res' & payload & [= <-] & ? & _)].
      congruence. }
  destruct (res_json res) as [payload|err] eqn:Hjson.
  2:{ eexists. split; [reflexivity|].
      split; [discriminate | intros (res' & payload & [= <-] & _ & ? & _)].
      congruence. }
  destruct (Js.not_zero (Js.get payload "errcode")) eqn:Hzero.
  - eexists. split; [reflexivity|]. split; [discriminate|].
    intros (res' & payload' & [= <-] & _ & Hp & Hcode).
    rewrite Hjson in Hp. injection Hp as <-. rewrite Hcode in Hzero. discriminate.
  - apply not_zero_false in Hzero.
    eexists. split; [reflexivity|].
    split; [intros _; exists res, payload; auto | reflexivity].
Qed.

Section Revision2Notify.
Variables (penv : option Env) (fetch : Fetcher) (env overrides : Env) (key : string).
Hypothesis Hkey : getEnv penv env overrides "WECHAT_WEBHOOK_KEY" = Some key.

(** Every notification accepted in its turn: all are sent. *)
Lemma revision2_notifyEach_all (results : list Legacy.Outcome) (w : World) :
  (forall before result after,
      results = before ++ result :: after ->
      Accepted (fetch (requests w ++ map (revision2Notification key) before)
                      (revision2Notification key result))) ->
  Revision2.notifyEach penv fetch env overrides results w
  = (Ok tt,
     mkWorld (requests w ++ map (revision2Notification key) results) (console w)).
Proof.
  revert w; induction results as [|result rest IH]; intros w Hall.
  - simpl. rewrite app_nil_r. now destruct w.
  - cbn [Revision2.notifyEach]. unfold bind.
    destruct (revision2_sendNotification penv fetch env overrides result w key Hkey)
      as (outcome & Hsend & Hiff).
    pose proof (Hall [] result rest eq_refl) as Hfirst.
    simpl in Hfirst. rewrite app_nil_r in Hfirst.
    apply Hiff in Hfirst. subst outcome. rewrite Hsend.
    rewrite IH.
    + cbn [logged requests console map]. now rewrite <- app_assoc.
    + intros before r after ->. cbn [logged requests].
      rewrite <- app_assoc. apply (Hall (result :: before) r after eq_refl).
Qed.

(** The first notification that is not accepted is the last one sent. *)
Lemma revision2_notifyEach_stops (before : list Legacy.Outcome)
    (result : Legacy.Outcome) (after : list Legacy.Outcome) (w : World) :
  (forall earlier sent later,
      before = earlier ++ sent :: later ->
      Accepted (fetch (requests w ++ map (revision2Notification key) earlier)
                      (revision2Notification key sent))) ->
  ~ Accepted (fetch (requests w ++ map (revision2Notification key) before)
                    (revision2Notification key result)) ->
  exists err,
    Revision2.notifyEach penv fetch env overrides (before ++ result :: after) w
    = (Throw err,
       mkWorld (requests w ++ map (revision2Notification key) (before ++ [result]))
               (console w)).
Proof.
  revert w; induction before as [|first before IH]; intros w Hbefore Hfails.
  - cbn [app Revision2.notifyEach]. unfold bind.
    destruct (revision2_sendNotification penv fetch env overrides result w key Hkey)
      as (outcome & Hsend & Hiff).
    rewrite Hsend.
    simpl in Hfails. rewrite app_nil_r in Hfails.
    destruct outcome as [[]|err]; [destruct Hfails; now apply Hiff|].
    exists err. reflexivity.
  - cbn [app Revision2.notifyEach]. unfold bind.
    destruct (revision2_sendNotification penv fetch env overrides first w key Hkey)
      as (outcome & Hsend & Hiff).
    pose proof (Hbefore [] first before eq_refl) as Hfirst.
    simpl in Hfirst. rewrite app_nil_r in Hfirst.
    apply Hiff in Hfirst. subst outcome. rewrite Hsend.
    destruct (IH (logged w (revision2Notification key first))) as [err Hrest].
    + intros earlier sent later ->. cbn [logged requests].
      rewrite <- app_assoc. apply (Hbefore (first :: earlier) sent later eq_refl).
    + cbn [logged requests]. rewrite <- app_assoc. exact Hfails.
    + exists err. rewrite Hrest. cbn [logged requests console map app].
      now rewrite <- app_assoc.
Qed.

End Revision2Notify.

(** X23. [run] of the second revision, with servers and a webhook key
    configured: after the refreshes (one request per server, in order) it
    notifies the results one by one, in order, with nothing to catch a
    failure. If every notification is accepted in its turn, all are sent and
    the results are returned; otherwise the first notification that is not
    accepted is the last request made: the run throws, and the results after
    it are not notified. *)
Theorem revision2_run (penv : option Env) (fetch : Fetcher) (env overrides : Env)
    (w : World) (servers : list Legacy.Server) (key : string) :
  Revision2.loadServers penv env overrides = Ok servers ->
  getEnv penv env overrides "WECHAT_WEBHOOK_KEY" = Some key ->
  exists (results : list Legacy.Outcome) (w1 : World),
    Revision2.refreshAll penv fetch env overrides w = (Ok results, w1)
    /\ map Legacy.outcome_alias results = map Legacy.alias servers
    /\ requests w1 = requests w ++ map Legacy.refreshRequest servers
    /\ ((forall before result after,
            results = before ++ result :: after ->
            Accepted (fetch (requests w1 ++ map (revision2Notification key) before)
                            (revision2Notification key result))) ->
        Revision2.run penv fetch env overrides w
        = (Ok results,
           mkWorld (requests w1 ++ map (revision2Notification key) results)
                   (console w)))
    /\ (forall before result after,
          results = before ++ result :: after ->
          (forall earlier sent later,
              before = earlier ++ sent :: later ->
              Accepted (fetch (requests w1
                               ++ map (revision2Notification key) earlier)
                              (revision2Notification key sent))) ->
          ~ Accepted (fetch (requests w1 ++ map (revision2Notification key) before)
                            (revision2Notification key result)) ->
          exists err,
            Revision2.run penv fetch env overrides w
            = (Throw err,
               mkWorld (requests w1
                        ++ map (revision2Notification key) (before ++ [result]))
                       (console w))).
Proof.
  intros Hload Hkey.
  destruct (legacy_refreshEach fetch servers [] w) as (results & Heach & Haliases).
  assert (Hall : Revision2.refreshAll penv fetch env overrides w
                 = (Ok results,
                    mkWorld (requests w ++ map Legacy.refreshRequest servers)
                            (console w))).
  { unfold Revision2.refreshAll, bind, settle. rewrite Hload. exact Heach. }
  eexists results, _. split; [exact Hall|]. split; [exact Haliases|].
  split; [reflexivity|]. unfold Revision2.run, bind. rewrite Hall. split.
  - intros Haccepted.
    rewrite (revision2_notifyEach_all penv fetch env overrides key Hkey results _
               Haccepted). reflexivity.
  - intros before result after -> Hbefore Hfails.
    destruct (revision2_notifyEach_stops penv fetch env overrides key Hkey
                before result after _ Hbefore Hfails) as [err Hstop].
    exists err. rewrite Hstop. reflexivity.
Qed.

(** Two servers refreshed, the first notification rejected: the second
    result is never notified. *)
Lemma revision2_run_witness :
  exists err,
    Revision2.run None rejectingWebhook revision2Env ∅ emptyWorld
    = (Throw err,
       mkWorld [Legacy.refreshRequest eastServer1; Legacy.refreshRequest westServer;
                revision2Notification "key"
                  (Legacy.mkOutcome "east" (JStr "3200") true)] []).
Proof.
  destruct (revision2_run None rejectingWebhook revision2Env ∅ emptyWorld
              [eastServer1; westServer] "key")
    as (results & w1 & Hall & _ & _ & _ & Hstop).
  - vm_compute. reflexivity.
  - vm_compute. reflexivity.
  - vm_compute in Hall. injection Hall as <- <-.
    apply (Hstop [] (Legacy.mkOutcome "east" (JStr "3200") true)
                 [Legacy.mkOutcome "west" (JStr "3200") true] eq_refl).
    + intros [|? ?] ? ? [=].
    + intros (res & payload & Hres & _ & Hjson & Hcode).
      vm_compute in Hres. injection Hres as <-.
      vm_compute in Hjson. injection Hjson as <-. discriminate Hcode.
Defined.

(** ** Dispatch when every room has an id *)

(** X24. For a matched group in which every room carries a usable id, the
    loop body of [refreshServer] returns an outcome after exactly one
    request, chosen by the number of rooms: for one room the single-room
    request with that room's id, for several the batch request with the ids
    of all the rooms, in the order of the rooms. *)
Theorem refreshGroup_by_room_count (server : ServerConfig) (token : string)
    (fetcher : Fetcher) (group : MatchedGroup) (w : World) :
  rooms group <> [] ->
  Forall (fun room => Js.truthy (Js.get room "id") = true) (rooms group) ->
  let ids := map (fun room => Js.get room "id") (rooms group) in
  exists outcome : RefreshOutcome,
    refreshGroup server token fetcher group w
    = (Ok outcome,
       logged w (match ids with
                 | [liveId] => refreshRoomRequest server token liveId
                 | _ => refreshMultiRoomRequest server token ids
                 end))
    /\ length ids = length (rooms group)
    /\ name outcome = Str.join "|" (names group).
Proof.
  intros Hrooms Hids ids.
  pose proof (groupLiveIds_all group Hids) as Hlive. fold ids in Hlive.
  assert (Hne : ids <> []).
  { unfold ids. destruct (rooms group); [congruence | discriminate]. }
  destruct (refreshGroup_outcome server token fetcher group w)
    as (outcome & w' & Hrun & Hout).
  pose proof (GroupOutcome_world _ _ _ _ _ _ _ Hout) as [Hreq Hcon].
  exists outcome. rewrite Hrun. split; [|split].
  - f_equal. destruct w' as [reqs cons]. cbn [requests console] in Hreq, Hcon.
    unfold logged. subst reqs cons. f_equal.
    unfold groupRequests. rewrite Hlive.
    destruct ids as [|liveId [|other more]]; [congruence | reflexivity | reflexivity].
  - unfold ids. now rewrite length_map.
  - apply (GroupOutcome_shape _ _ _ _ _ _ _ Hout).
Qed.

Lemma refreshGroup_by_room_count_witness :
  exists outcome : RefreshOutcome,
    refreshGroup eastServer "tok" (always (Ok (jsonResponse batchSuccess)))
                 (mkGroup ["Alpha"; "Beta"] [roomAlpha; roomBeta]) emptyWorld
    = (Ok outcome,
       logged emptyWorld (refreshMultiRoomRequest eastServer "tok" [JNum 1; JNum 2]))
    /\ length [JNum 1; JNum 2] = 2%nat
    /\ name outcome = "Alpha|Beta".
Proof.
  apply (refreshGroup_by_room_count eastServer "tok"
           (always (Ok (jsonResponse batchSuccess)))
           (mkGroup ["Alpha"; "Beta"] [roomAlpha; roomBeta]) emptyWorld).
  - discriminate.
  - repeat constructor.
Defined.
